(** * XO Arena: the win evaluator and the move selector of [src/app/page.tsx]

    A shallow embedding of [evaluateWinner], [minimax], [pickBestMove] and of
    the part of the page component that applies moves ([makeMove], the bot
    effect and [handleSquareClick]), followed by the properties proved about
    them.

    Conventions of the embedding:
    - a board is the JavaScript array [(Player | null)[]], a [list] of cells
      read with stdpp's lookup and written with stdpp's insert.  Every write
      of the source is at an index taken from the board itself (a loop
      counter below [board.length], or an element of [available]), so the
      array never grows;
    - [minimax] and [pickBestMove] mutate the array they are given; they are
      functions in a state monad over the board, so that the array after
      the call is part of the result;
    - the recursion of [minimax] is on a fuel argument; the entry points
      give it [S (length board)], and the theorems show this is enough;
    - a JavaScript number that a score can take is an integer or one of
      the two infinities ([Math.max()] and [Math.min()] of no argument);
    - the two values [Math.random()] returns in [pickBestMove] are
      arguments, rationals; the source only reads them through [<] and
      through [Math.floor] of a product. *)

From Stdlib Require Import ZArith QArith Qround Lia Bool.
From stdpp Require Import base list relations.

Local Open Scope nat_scope.

(** ** Data model *)

(** [type Player = "X" | "O"] *)
Inductive Player : Type := X | O.

(** [type Winner = Player | "tie" | null]; [null] is [None] of
    [option Winner]. *)
Inductive Winner : Type :=
| Won (p : Player)
| Tie.

(** [type Difficulty = "relaxed" | "balanced" | "perfect"] *)
Inductive Difficulty : Type := relaxed | balanced | perfect.

(** A cell is [Player | null]. *)
Abbreviation Cell := (option Player).
Abbreviation Board := (list (option Player)).
Definition Trio : Type := (nat * nat * nat)%type.

Definition WINNING_TRIOS : list Trio :=
  [ (0, 1, 2);
    (3, 4, 5);
    (6, 7, 8);
    (0, 3, 6);
    (1, 4, 7);
    (2, 5, 8);
    (0, 4, 8);
    (2, 4, 6) ].

Definition emptyBoard : Board := replicate 9 None.

Definition nextPlayer (player : Player) : Player :=
  match player with X => O | O => X end.

Definition player_eqb (p q : Player) : bool :=
  match p, q with
  | X, X | O, O => true
  | _, _ => false
  end.

(** [c === p] for a cell [c] and a mark [p]. *)
Definition cell_is (c : Cell) (p : Player) : bool :=
  match c with
  | Some q => player_eqb q p
  | None => false
  end.

(** [board[i]].  A read past the end gives [undefined], which like [null]
    is falsy and is [===] to no mark; the source never compares such a read
    with [null], so both are [None] here. *)
Definition cell_at (board : Board) (i : nat) : Cell :=
  default None (board !! i).

(** [board[i] = c], at an index inside the array. *)
Definition set_cell (board : Board) (i : nat) (c : Cell) : Board :=
  <[i := c]> board.

(** ** The win evaluator *)

Record Evaluation : Type := mkEvaluation {
  winner : Cell;
  line : option Trio
}.

(** [board[a] && board[a] === board[b] && board[b] === board[c]] *)
Definition trio_matches (board : Board) (trio : Trio) : bool :=
  let '(a, b, c) := trio in
  match cell_at board a with
  | None => false
  | Some p => cell_is (cell_at board b) p
              && match cell_at board b with
                 | Some q => cell_is (cell_at board c) q
                 | None => false
                 end
  end.

Fixpoint scan_trios (board : Board) (trios : list Trio) : Evaluation :=
  match trios with
  | [] => mkEvaluation None None
  | trio :: rest =>
      if trio_matches board trio
      then mkEvaluation (cell_at board (fst (fst trio))) (Some trio)
      else scan_trios board rest
  end.

Definition evaluateWinner (board : Board) : Evaluation :=
  scan_trios board WINNING_TRIOS.

(** [board.every(Boolean)] *)
Definition every_Boolean (board : Board) : bool :=
  forallb (fun c : Cell => match c with Some _ => true | None => false end) board.

(** ** Numbers a score can be *)

Inductive Num : Type :=
| NegInf
| Fin (z : Z)
| PosInf.

Definition num_ltb (x y : Num) : bool :=
  match x, y with
  | NegInf, NegInf => false
  | NegInf, _ => true
  | Fin _, NegInf => false
  | Fin a, Fin b => (a <? b)%Z
  | Fin _, PosInf => true
  | PosInf, _ => false
  end.

Definition num_max (x y : Num) : Num := if num_ltb x y then y else x.
Definition num_min (x y : Num) : Num := if num_ltb y x then y else x.

(** [Math.max(...scores)] and [Math.min(...scores)] *)
Definition Math_max (scores : list Num) : Num := fold_left num_max scores NegInf.
Definition Math_min (scores : list Num) : Num := fold_left num_min scores PosInf.

(** ** The state monad of the search: the board array, and running out of fuel *)

Definition Search (A : Type) : Type := Board -> option (A * Board).

Definition ret {A} (a : A) : Search A := fun board => Some (a, board).

Definition bind {A B} (m : Search A) (k : A -> Search B) : Search B :=
  fun board =>
    match m board with
    | Some (a, board') => k a board'
    | None => None
    end.

Definition read : Search Board := fun board => Some (board, board).

Definition write (i : nat) (c : Cell) : Search unit :=
  fun board => Some (tt, set_cell board i c).

Definition out_of_fuel {A} : Search A := fun _ => None.

Notation "'let*' x ':=' m 'in' k" := (bind m (fun x => k))
  (at level 10, x name, m at level 100, k at level 200).
Notation "m ';;;' k" := (bind m (fun _ => k))
  (at level 100, k at level 200, right associativity).

(** ** [minimax] *)

(** The body of [for (let i = 0; i < board.length; i += 1)], over the
    indices still to visit; [recurse] is the recursive call
    [minimax(board, depth + 1, !isMaximising, ai, human)]. *)
Fixpoint minimax_loop (recurse : Search Num) (current : Player)
    (indices : list nat) (scores : list Num) : Search (list Num) :=
  match indices with
  | [] => ret scores
  | i :: rest =>
      let* board := read in
      match cell_at board i with
      | Some _ => minimax_loop recurse current rest scores
      | None =>
          write i (Some current) ;;;
          let* score := recurse in
          write i None ;;;
          minimax_loop recurse current rest (scores ++ [score])
      end
  end.

Fixpoint minimax_fuel (fuel : nat) (depth : Z) (isMaximising : bool)
    (ai human : Player) : Search Num :=
  match fuel with
  | 0 => out_of_fuel
  | S fuel' =>
      let* board := read in
      let w := winner (evaluateWinner board) in
      if cell_is w ai then ret (Fin (10 - depth))
      else if cell_is w human then ret (Fin (depth - 10))
      else if every_Boolean board then ret (Fin 0)
      else
        let current := if isMaximising then ai else human in
        let* scores :=
          minimax_loop
            (minimax_fuel fuel' (depth + 1) (negb isMaximising) ai human)
            current (seq 0 (length board)) [] in
        ret (if isMaximising then Math_max scores else Math_min scores)
  end.

Definition minimax (depth : Z) (isMaximising : bool) (ai human : Player)
  : Search Num :=
  fun board => minimax_fuel (S (length board)) depth isMaximising ai human board.

(** ** [pickBestMove] *)

(** What [pickBestMove] returns: [null], a cell index, or the [undefined]
    of an array read past the end. *)
Inductive Move : Type :=
| MoveNull
| MoveUndefined
| MoveAt (index : nat).

(** [cell === null], for a cell inside the array. *)
Definition is_null (c : Cell) : bool :=
  match c with None => true | Some _ => false end.

(** [board.map((cell, index) => cell === null ? index : null)
         .filter((cell) => cell !== null)] *)
Definition available_of (board : Board) : list nat :=
  List.filter (fun i => is_null (cell_at board i)) (seq 0 (length board)).

(** The two tactical loops, which differ in the mark they try:
    [for (const move of available) { board[move] = mark; ... }].
    [Some move] is the early [return move]. *)
Fixpoint tactical (mark : Player) (moves : list nat) : Search (option nat) :=
  match moves with
  | [] => ret None
  | move :: rest =>
      write move (Some mark) ;;;
      let* board := read in
      if cell_is (winner (evaluateWinner board)) mark
      then write move None ;;; ret (Some move)
      else write move None ;;; tactical mark rest
  end.

(** [mistakes[difficulty]].  The literals [0.55] and [0.3] are the
    binary64 numbers nearest to them, [2476979795053773 / 2^52] and
    [5404319552844595 / 2^54]; [<] on two such numbers is [<] on their
    values. *)
Definition mistakes (difficulty : Difficulty) : Q :=
  match difficulty with
  | relaxed => 2476979795053773 # 4503599627370496
  | balanced => 5404319552844595 # 18014398509481984
  | perfect => 0
  end.

(** [Math.random() < mistakes[difficulty]], for the value [r] drawn. *)
Definition makes_mistake (difficulty : Difficulty) (r : Q) : bool :=
  negb (Qle_bool (mistakes difficulty) r).

(** [available[Math.floor(r * available.length)]], with the product taken
    exactly; an index outside the array reads [undefined].  The source
    rounds the product to binary64: where the two differ the source reads
    the next cell of [available]; they agree when the product is itself a
    binary64 number, as for a draw [j / 16] and a length up to 16. *)
Definition random_choice (available : list nat) (r : Q) : Move :=
  let k := Qfloor (r * inject_Z (Z.of_nat (length available))) in
  if (k <? 0)%Z then MoveUndefined
  else match available !! Z.to_nat k with
       | Some move => MoveAt move
       | None => MoveUndefined
       end.

(** The last loop: [for (const move of available) { board[move] = ai;
    const score = minimax(board, 0, false, ai, human); ... }] *)
Fixpoint search_loop (fuel : nat) (ai human : Player) (moves : list nat)
    (bestScore : Num) (chosenMove : nat) : Search nat :=
  match moves with
  | [] => ret chosenMove
  | move :: rest =>
      write move (Some ai) ;;;
      let* score := minimax_fuel fuel 0 false ai human in
      write move None ;;;
      if num_ltb bestScore score
      then search_loop fuel ai human rest score move
      else search_loop fuel ai human rest bestScore chosenMove
  end.

(** [r1] and [r2] are the values of the first and of the second call of
    [Math.random()]; [fuel] is the fuel of each [minimax] call. *)
Definition pickBestMove_fuel (fuel : nat) (ai human : Player)
    (difficulty : Difficulty) (r1 r2 : Q) : Search Move :=
  let* board := read in
  let available := available_of board in
  match available with
  | [] => ret MoveNull
  | first :: _ =>
      let* won := tactical ai available in
      match won with
      | Some move => ret (MoveAt move)
      | None =>
          let* blocked := tactical human available in
          match blocked with
          | Some move => ret (MoveAt move)
          | None =>
              if makes_mistake difficulty r1
              then ret (random_choice available r2)
              else
                let* chosenMove :=
                  search_loop fuel ai human available NegInf first in
                ret (MoveAt chosenMove)
          end
      end
  end.

Definition pickBestMove (ai human : Player) (difficulty : Difficulty)
    (r1 r2 : Q) : Search Move :=
  fun board =>
    pickBestMove_fuel (S (length board)) ai human difficulty r1 r2 board.

(** ** The page component [Home]: applying moves

    The part of the component's state that moves read and write.  The mode
    is ["bot"]; the score tally, which only [applyWin] touches, is left out. *)
Module Home.

Record State : Type := mkState {
  humanSymbol : Player;
  board : Board;
  currentPlayer : Player;
  winner : option Winner;
  highlightLine : option Trio
}.

(** [humanSymbol === "X" ? "O" : "X"] *)
Definition botSymbol (s : State) : Player :=
  match humanSymbol s with X => O | O => X end.

(** [startFreshBoard(starter)] *)
Definition startFreshBoard (human starter : Player) : State :=
  mkState human emptyBoard starter None None.

(** [makeMove(index, player)], for an index inside the array: a button's
    index or a move of [pickBestMove]. *)
Definition makeMove (s : State) (index : nat) (player : Player) : State :=
  match winner s, cell_at (board s) index with
  | Some _, _ | _, Some _ => s
  | None, None =>
      let next := set_cell (board s) index (Some player) in
      let '(mkEvaluation outcome line) := evaluateWinner next in
      let boardFilled := every_Boolean next in
      match outcome with
      | Some p =>
          mkState (humanSymbol s) next (currentPlayer s) (Some (Won p)) line
      | None =>
          if boardFilled
          then mkState (humanSymbol s) next (currentPlayer s) (Some Tie) None
          else mkState (humanSymbol s) next (nextPlayer player) None None
      end
  end.

(** [handleSquareClick(index)] *)
Definition handleSquareClick (s : State) (index : nat) : State :=
  match winner s with
  | Some _ => s
  | None =>
      match cell_at (board s) index with
      | Some _ => s
      | None =>
          if player_eqb (currentPlayer s) (humanSymbol s)
          then makeMove s index (currentPlayer s)
          else s
      end
  end.

(** The bot's effect, once its timeout fires: [pickBestMove] on a copy of
    the board, then [makeMove].  [None] stands for what the state type
    does not hold: a move that is [undefined], or a search out of fuel. *)
Definition botEffect (s : State) (difficulty : Difficulty) (r1 r2 : Q)
  : option State :=
  match winner s with
  | Some _ => Some s
  | None =>
      if player_eqb (currentPlayer s) (botSymbol s)
      then
        match pickBestMove (botSymbol s) (humanSymbol s) difficulty r1 r2
                (board s) with
        | Some (MoveAt move, _) => Some (makeMove s move (botSymbol s))
        | Some (MoveNull, _) => Some s
        | Some (MoveUndefined, _) | None => None
        end
      else Some s
  end.

(** [Math.random()] returns a number of [[0, 1)]. *)
Definition draw (r : Q) : Prop := (0 <= r)%Q /\ (r < 1)%Q.

(** One event of a round against the bot: a click on one of the nine
    squares, or the bot's effect. *)
Inductive step (difficulty : Difficulty) : State -> State -> Prop :=
| step_click s index :
    index < length (board s) ->
    step difficulty s (handleSquareClick s index)
| step_bot s r1 r2 s' :
    draw r1 -> draw r2 ->
    botEffect s difficulty r1 r2 = Some s' ->
    step difficulty s s'.

(** The states a round reaches. *)
Definition reachable (difficulty : Difficulty) (human starter : Player)
  : State -> Prop :=
  rtc (step difficulty) (startFreshBoard human starter).

End Home.

(** ** Vocabulary of the properties *)

(** Cell [i] exists and is empty. *)
Definition empty_at (board : Board) (i : nat) : Prop := board !! i = Some None.

(** No cell of the board is empty. *)
Definition full (board : Board) : Prop := forall i, ~ empty_at board i.

(** The three cells of [trio] hold the mark [p]. *)
Definition holds (board : Board) (trio : Trio) (p : Player) : Prop :=
  cell_at board (fst (fst trio)) = Some p
  /\ cell_at board (snd (fst trio)) = Some p
  /\ cell_at board (snd trio) = Some p.

(** [trio] is a completed line: three identical marks. *)
Definition completed (board : Board) (trio : Trio) : Prop :=
  exists p, holds board trio p.

(** No winning line is completed. *)
Definition lineless (board : Board) : Prop :=
  forall trio, In trio WINNING_TRIOS -> ~ completed board trio.

(** Placing [p] in the empty cell [i] completes a winning line for [p]:
    a line that was not complete is, with the new mark. *)
Definition completes (board : Board) (i : nat) (p : Player) : Prop :=
  empty_at board i
  /\ exists trio, In trio WINNING_TRIOS
       /\ holds (set_cell board i (Some p)) trio p
       /\ ~ completed board trio.

(** With [p] placed in the empty cell [i], the win evaluator reports [p]. *)
Definition reports_win (board : Board) (i : nat) (p : Player) : Prop :=
  empty_at board i
  /\ winner (evaluateWinner (set_cell board i (Some p))) = Some p.

(** The number of empty cells, the measure of the search. *)
Fixpoint empties (board : Board) : nat :=
  match board with
  | [] => 0
  | None :: rest => S (empties rest)
  | Some _ :: rest => empties rest
  end.

Definition finite (s : Num) : Prop := exists z, s = Fin z.

(** The rows, the columns and the two diagonals of the grid, row-major. *)
Definition rows : list Trio := map (fun r => (3 * r, 3 * r + 1, 3 * r + 2)) [0; 1; 2].
Definition columns : list Trio := map (fun c => (c, c + 3, c + 6)) [0; 1; 2].
Definition diagonals : list Trio := [(0, 4, 8); (2, 4, 6)].

(** Some winning line has the mark [p] in its three cells. *)
Definition has_line (board : Board) (p : Player) : bool :=
  existsb (fun trio : Trio =>
             cell_is (cell_at board (fst (fst trio))) p
             && cell_is (cell_at board (snd (fst trio))) p
             && cell_is (cell_at board (snd trio)) p)
          WINNING_TRIOS.

(** The human has won: the round's winner is the human's mark, or the
    evaluator reports the human's mark on the board, or some winning line
    holds three marks of the human. *)
Definition human_won (s : Home.State) : bool :=
  match Home.winner s with
  | Some (Won p) => player_eqb p (Home.humanSymbol s)
  | _ => false
  end
  || cell_is (winner (evaluateWinner (Home.board s))) (Home.humanSymbol s)
  || has_line (Home.board s) (Home.humanSymbol s).

(** Explores every round from [s] in which the bot plays [pickBestMove] at
    difficulty ["perfect"] and the human clicks any empty square; [true]
    when the human has won in none of the states met, and a move can be
    made in each of them where the round is not over. *)
Fixpoint bot_never_loses (fuel : nat) (s : Home.State) : bool :=
  match fuel with
  | 0 => false
  | S fuel' =>
      negb (human_won s)
      && match Home.winner s with
         | Some _ => true
         | None =>
             if player_eqb (Home.currentPlayer s) (Home.botSymbol s)
             then
               match pickBestMove (Home.botSymbol s) (Home.humanSymbol s)
                       perfect 0 0 (Home.board s) with
               | Some (MoveAt move, _) =>
                   bot_never_loses fuel' (Home.makeMove s move (Home.botSymbol s))
               | _ => false
               end
             else
               negb (every_Boolean (Home.board s))
               && forallb
                    (fun index =>
                       bot_never_loses fuel' (Home.handleSquareClick s index))
                    (available_of (Home.board s))
         end
  end.

(** The first empty cell, in ascending order, where placing [mark] makes
    the win evaluator report [mark]: what a tactical loop returns. *)
Definition first_win (board : Board) (mark : Player) : option nat :=
  find (fun move =>
          cell_is (winner (evaluateWinner (set_cell board move (Some mark)))) mark)
       (available_of board).

(** ** The page component [Home], whole: every piece of state and every
    handler

    [Home] above keeps the fields a round against the bot needs; [Page] is
    the component with all its [useState] cells, the score tally and the
    controls.  A handler reads the state of the render it was created in
    and queues updates; here it is a function from that state to the state
    once the updates are applied. *)
Module Page.

(** [type Mode = "bot" | "friend"] *)
Inductive Mode : Type := bot | friend.

(** [Record<Player | "tie", number>] *)
Record Scores : Type := mkScores {
  winsX : nat;
  winsO : nat;
  ties : nat
}.

(** [scores[result]] *)
Definition tally (scores : Scores) (result : Winner) : nat :=
  match result with
  | Won X => winsX scores
  | Won O => winsO scores
  | Tie => ties scores
  end.

(** [{ ...prev, [result]: prev[result] + 1 }] *)
Definition increment (prev : Scores) (result : Winner) : Scores :=
  match result with
  | Won X => mkScores (winsX prev + 1) (winsO prev) (ties prev)
  | Won O => mkScores (winsX prev) (winsO prev + 1) (ties prev)
  | Tie => mkScores (winsX prev) (winsO prev) (ties prev + 1)
  end.

Record State : Type := mkState {
  mode : Mode;
  difficulty : Difficulty;
  humanSymbol : Player;
  startingPlayer : Player;
  board : Board;
  currentPlayer : Player;
  winner : option Winner;
  highlightLine : option Trio;
  isBotThinking : bool;
  scores : Scores
}.

(** The values given to [useState]. *)
Definition initial : State :=
  mkState bot balanced X X emptyBoard X None None false (mkScores 0 0 0).

(** The state setters. *)
Definition setMode (v : Mode) (s : State) : State :=
  mkState v (difficulty s) (humanSymbol s) (startingPlayer s) (board s)
    (currentPlayer s) (winner s) (highlightLine s) (isBotThinking s) (scores s).
Definition setDifficulty (v : Difficulty) (s : State) : State :=
  mkState (mode s) v (humanSymbol s) (startingPlayer s) (board s)
    (currentPlayer s) (winner s) (highlightLine s) (isBotThinking s) (scores s).
Definition setHumanSymbol (v : Player) (s : State) : State :=
  mkState (mode s) (difficulty s) v (startingPlayer s) (board s)
    (currentPlayer s) (winner s) (highlightLine s) (isBotThinking s) (scores s).
Definition setStartingPlayer (v : Player) (s : State) : State :=
  mkState (mode s) (difficulty s) (humanSymbol s) v (board s)
    (currentPlayer s) (winner s) (highlightLine s) (isBotThinking s) (scores s).
Definition setBoard (v : Board) (s : State) : State :=
  mkState (mode s) (difficulty s) (humanSymbol s) (startingPlayer s) v
    (currentPlayer s) (winner s) (highlightLine s) (isBotThinking s) (scores s).
Definition setCurrentPlayer (v : Player) (s : State) : State :=
  mkState (mode s) (difficulty s) (humanSymbol s) (startingPlayer s) (board s)
    v (winner s) (highlightLine s) (isBotThinking s) (scores s).
Definition setWinner (v : option Winner) (s : State) : State :=
  mkState (mode s) (difficulty s) (humanSymbol s) (startingPlayer s) (board s)
    (currentPlayer s) v (highlightLine s) (isBotThinking s) (scores s).
Definition setHighlightLine (v : option Trio) (s : State) : State :=
  mkState (mode s) (difficulty s) (humanSymbol s) (startingPlayer s) (board s)
    (currentPlayer s) (winner s) v (isBotThinking s) (scores s).
Definition setIsBotThinking (v : bool) (s : State) : State :=
  mkState (mode s) (difficulty s) (humanSymbol s) (startingPlayer s) (board s)
    (currentPlayer s) (winner s) (highlightLine s) v (scores s).
(** [setScores((prev) => f(prev))] *)
Definition setScores (f : Scores -> Scores) (s : State) : State :=
  mkState (mode s) (difficulty s) (humanSymbol s) (startingPlayer s) (board s)
    (currentPlayer s) (winner s) (highlightLine s) (isBotThinking s)
    (f (scores s)).

(** [humanSymbol === "X" ? "O" : "X"] *)
Definition botSymbol (s : State) : Player :=
  match humanSymbol s with X => O | O => X end.

(** [startFreshBoard(starter)] *)
Definition startFreshBoard (starter : Player) (s : State) : State :=
  setIsBotThinking false
    (setCurrentPlayer starter
       (setHighlightLine None (setWinner None (setBoard emptyBoard s)))).

(** [applyWin(result, line)] *)
Definition applyWin (result : option Winner) (line : option Trio) (s : State)
  : State :=
  let s1 := setHighlightLine line (setWinner result s) in
  match result with
  | Some Tie => setScores (fun prev => increment prev Tie) s1
  | None => s1
  | Some (Won p) => setScores (fun prev => increment prev (Won p)) s1
  end.

(** [makeMove(index, player)], for an index inside the array. *)
Definition makeMove (index : nat) (player : Player) (s : State) : State :=
  match winner s, cell_at (board s) index with
  | Some _, _ | _, Some _ => s
  | None, None =>
      let next := set_cell (board s) index (Some player) in
      let '(mkEvaluation outcome line) := evaluateWinner next in
      let boardFilled := every_Boolean next in
      let s1 := setBoard next s in
      match outcome with
      | Some p => applyWin (Some (Won p)) line s1
      | None =>
          if boardFilled then applyWin (Some Tie) None s1
          else setCurrentPlayer (nextPlayer player) s1
      end
  end.

(** [handleSquareClick(index)] *)
Definition handleSquareClick (index : nat) (s : State) : State :=
  match winner s with
  | Some _ => s
  | None =>
      match cell_at (board s) index with
      | Some _ => s
      | None =>
          match mode s with
          | bot =>
              if player_eqb (currentPlayer s) (humanSymbol s)
              then makeMove index (currentPlayer s) s
              else s
          | friend => makeMove index (currentPlayer s) s
          end
      end
  end.

(** [handleModeChange(nextMode)] *)
Definition handleModeChange (nextMode : Mode) (s : State) : State :=
  startFreshBoard X (setStartingPlayer X (setMode nextMode s)).

(** [handleHumanSymbolChange(symbol)] *)
Definition handleHumanSymbolChange (symbol : Player) (s : State) : State :=
  startFreshBoard X (setStartingPlayer X (setHumanSymbol symbol s)).

(** [handleNewRound()] *)
Definition handleNewRound (s : State) : State :=
  let nextStarter := nextPlayer (startingPlayer s) in
  startFreshBoard nextStarter (setStartingPlayer nextStarter s).

(** [handleStarterSelection(symbol)] *)
Definition handleStarterSelection (symbol : Player) (s : State) : State :=
  startFreshBoard symbol (setStartingPlayer symbol s).

(** [handleResetScores()] *)
Definition handleResetScores (s : State) : State :=
  startFreshBoard X
    (setStartingPlayer X (setScores (fun _ => mkScores 0 0 0) s)).

(** The guards of the effect: the mode is ["bot"], the round is not over
    and it is the bot's turn. *)
Definition botTurn (s : State) : bool :=
  match mode s, winner s with
  | bot, None => player_eqb (currentPlayer s) (botSymbol s)
  | _, _ => false
  end.

(** The effect, up to the timeout: [setIsBotThinking(true)]. *)
Definition botThinks (s : State) : State :=
  if botTurn s then setIsBotThinking true s else s.

(** The callback of the timeout; it exists when the guards of the effect
    passed.  [None] stands for what the state type does not hold: a move
    that is [undefined], or a search out of fuel. *)
Definition botMoves (r1 r2 : Q) (s : State) : option State :=
  if botTurn s
  then
    match pickBestMove (botSymbol s) (humanSymbol s) (difficulty s) r1 r2
            (board s) with
    | Some (MoveAt move, _) =>
        Some (setIsBotThinking false (makeMove move (botSymbol s) s))
    | Some (MoveNull, _) => Some (setIsBotThinking false s)
    | Some (MoveUndefined, _) | None => None
    end
  else Some s.

(** What can happen to the page: the buttons the JSX renders, each with
    its handler, and the two halves of the bot's effect.  The choice of the
    human's symbol and of the difficulty is rendered in mode ["bot"]
    only, the choice of the starter in mode ["friend"] only. *)
Inductive step : State -> State -> Prop :=
| step_square s index :
    index < length (board s) ->
    step s (handleSquareClick index s)
| step_mode s nextMode :
    step s (handleModeChange nextMode s)
| step_human_symbol s symbol :
    mode s = bot ->
    step s (handleHumanSymbolChange symbol s)
| step_difficulty s level :
    mode s = bot ->
    step s (setDifficulty level s)
| step_starter s symbol :
    mode s = friend ->
    step s (handleStarterSelection symbol s)
| step_new_round s :
    step s (handleNewRound s)
| step_replay s :
    step s (startFreshBoard (startingPlayer s) s)
| step_reset_scores s :
    step s (handleResetScores s)
| step_bot_thinks s :
    step s (botThinks s)
| step_bot_moves s r1 r2 s' :
    Home.draw r1 -> Home.draw r2 ->
    botMoves r1 r2 s = Some s' ->
    step s s'.

Definition reachable : State -> Prop := rtc step initial.

(** The fields of [Home.State]. *)
Definition round (s : State) : Home.State :=
  Home.mkState (humanSymbol s) (board s) (currentPlayer s) (winner s)
    (highlightLine s).

End Page.

(** The number of cells that hold the mark [p]. *)
Definition count_marks (p : Player) (board : Board) : nat :=
  length (List.filter (fun c : Cell => cell_is c p) board).

(** What happens during a round: squares are clicked and the two halves of
    the bot's effect run. *)
Inductive round_step : Page.State -> Page.State -> Prop :=
| round_square s index :
    index < length (Page.board s) ->
    round_step s (Page.handleSquareClick index s)
| round_bot_thinks s :
    round_step s (Page.botThinks s)
| round_bot_moves s r1 r2 s' :
    Home.draw r1 -> Home.draw r2 ->
    Page.botMoves r1 r2 s = Some s' ->
    round_step s s'.

(** The marks on the board and the player to move agree with alternate
    play from [startingPlayer]: while the round goes on, the player to move
    is the starter when both have as many marks and the other player when
    the starter has one more; once the round is over, [currentPlayer] is
    the player who moved last. *)
Definition turns_alternate (s : Page.State) : Prop :=
  let starter := Page.startingPlayer s in
  let a := count_marks starter (Page.board s) in
  let b := count_marks (nextPlayer starter) (Page.board s) in
  match Page.winner s with
  | None =>
      (a = b /\ Page.currentPlayer s = starter)
      \/ (a = S b /\ Page.currentPlayer s = nextPlayer starter)
  | Some _ =>
      (a = S b /\ Page.currentPlayer s = starter)
      \/ (a = b /\ Page.currentPlayer s = nextPlayer starter)
  end.

(** The recorded outcome is the one the board shows. *)
Definition outcome_consistent (s : Page.State) : Prop :=
  match Page.winner s with
  | None =>
      lineless (Page.board s) /\ ~ full (Page.board s)
      /\ Page.highlightLine s = None
  | Some Tie =>
      lineless (Page.board s) /\ full (Page.board s)
      /\ Page.highlightLine s = None
  | Some (Won p) =>
      p = Page.currentPlayer s
      /\ exists t,
           Page.highlightLine s = Some t
           /\ evaluateWinner (Page.board s) = mkEvaluation (Some p) (Some t)
  end.

Definition page_invariant (s : Page.State) : Prop :=
  length (Page.board s) = 9
  /\ turns_alternate s
  /\ outcome_consistent s
  /\ (Page.isBotThinking s = true -> Page.botTurn s = true).

(** Replaces the first state of a run by its value. *)
Ltac normalize_state :=
  match goal with
  | |- rtc _ ?x _ => let y := eval vm_compute in x in change x with y
  end.

(** * Properties *)

(** ** Marks and cells *)

Lemma player_eqb_eq (p q : Player) : player_eqb p q = true <-> p = q.
Proof. destruct p, q; simpl; split; congruence. Qed.

Lemma player_eqb_refl (p : Player) : player_eqb p p = true.
Proof. now destruct p. Qed.

Lemma player_eqb_neq (p q : Player) : player_eqb p q = false <-> p <> q.
Proof. destruct p, q; simpl; split; congruence. Qed.

Lemma cell_is_eq (c : Cell) (p : Player) : cell_is c p = true <-> c = Some p.
Proof.
  destruct c as [q|]; simpl; [rewrite player_eqb_eq|]; split; congruence.
Qed.

Lemma cell_is_neq (c : Cell) (p : Player) : cell_is c p = false <-> c <> Some p.
Proof.
  rewrite <- cell_is_eq. destruct (cell_is c p); split; congruence.
Qed.

Lemma cell_at_empty (board : Board) (i : nat) :
  i < length board -> cell_at board i = None -> empty_at board i.
Proof.
  unfold cell_at, empty_at. intros Hi.
  destruct (lookup_lt_is_Some_2 board i Hi) as [c Hc].
  rewrite Hc. simpl. congruence.
Qed.

Lemma empty_at_cell (board : Board) (i : nat) :
  empty_at board i -> cell_at board i = None /\ i < length board.
Proof.
  unfold cell_at, empty_at. intros H. split.
  - now rewrite H.
  - eapply lookup_lt_Some; eauto.
Qed.

Lemma cell_at_set_eq (board : Board) (i : nat) (c : Cell) :
  i < length board -> cell_at (set_cell board i c) i = c.
Proof.
  intros Hi. unfold cell_at, set_cell.
  now rewrite list_lookup_insert_eq.
Qed.

Lemma cell_at_set_ne (board : Board) (i j : nat) (c : Cell) :
  i <> j -> cell_at (set_cell board i c) j = cell_at board j.
Proof.
  intros Hij. unfold cell_at, set_cell.
  now rewrite list_lookup_insert_ne.
Qed.

(** Undoing a hypothetical placement in an empty cell gives the board back. *)
Lemma set_cell_undo (board : Board) (i : nat) (p : Player) :
  empty_at board i -> set_cell (set_cell board i (Some p)) i None = board.
Proof.
  intros H. unfold set_cell.
  rewrite list_insert_insert_eq. now apply list_insert_id.
Qed.

(** ** The win evaluator *)

Lemma trio_matches_completed (board : Board) (trio : Trio) :
  trio_matches board trio = true <-> completed board trio.
Proof.
  destruct trio as [[a b] c]. unfold trio_matches, completed, holds. simpl.
  split.
  - destruct (cell_at board a) as [p|]; [|discriminate].
    destruct (cell_at board b) as [q|]; simpl; [|discriminate].
    rewrite andb_true_iff, player_eqb_eq, cell_is_eq.
    intros [-> ->]. now exists p.
  - intros [p (-> & -> & ->)]. simpl. now rewrite player_eqb_refl.
Qed.

Lemma trio_matches_not_completed (board : Board) (trio : Trio) :
  trio_matches board trio = false <-> ~ completed board trio.
Proof.
  rewrite <- trio_matches_completed.
  destruct (trio_matches board trio); split; congruence.
Qed.

(** The scan stops at the first completed line of the list. *)
Lemma scan_trios_first (board : Board) (before after : list Trio)
    (trio : Trio) (p : Player) :
  Forall (fun t => ~ completed board t) before ->
  holds board trio p ->
  scan_trios board (before ++ trio :: after)
  = mkEvaluation (Some p) (Some trio).
Proof.
  intros Hbefore Hp. induction Hbefore as [|t before Ht _ IH]; simpl.
  - assert (Hm : trio_matches board trio = true)
      by (apply trio_matches_completed; now exists p).
    rewrite Hm. now destruct Hp as (-> & _).
  - apply trio_matches_not_completed in Ht. now rewrite Ht.
Qed.

Lemma scan_trios_none (board : Board) (trios : list Trio) :
  (forall t, In t trios -> ~ completed board t) ->
  scan_trios board trios = mkEvaluation None None.
Proof.
  induction trios as [|t trios IH]; simpl; intros H; [reflexivity|].
  assert (Ht : trio_matches board t = false)
    by (apply trio_matches_not_completed, H; now left).
  rewrite Ht. apply IH. intros t' Ht'. apply H. now right.
Qed.

(** Every list of lines splits at its first completed line, if it has one. *)
Lemma first_completed (board : Board) (trios : list Trio) :
  (exists t, In t trios /\ completed board t) ->
  exists before trio after p,
    trios = before ++ trio :: after
    /\ Forall (fun t => ~ completed board t) before
    /\ holds board trio p.
Proof.
  induction trios as [|t trios IH]; intros (t0 & Hin & Hc); [easy|].
  destruct (trio_matches board t) eqn:Ht.
  - apply trio_matches_completed in Ht as [p Hp].
    now exists [], t, trios, p.
  - apply trio_matches_not_completed in Ht.
    destruct Hin as [->|Hin]; [contradiction|].
    destruct IH as (before & trio & after & p & -> & Hb & Hp); [eauto|].
    exists (t :: before), trio, after, p.
    split; [reflexivity|]. split; [now constructor|assumption].
Qed.

Lemma evaluateWinner_lineless (board : Board) :
  lineless board -> evaluateWinner board = mkEvaluation None None.
Proof. apply scan_trios_none. Qed.

(** What a reported winner means: some line holds that mark. *)
Lemma scan_trios_winner (board : Board) (trios : list Trio) (p : Player) :
  winner (scan_trios board trios) = Some p ->
  exists t, In t trios /\ holds board t p
    /\ scan_trios board trios = mkEvaluation (Some p) (Some t).
Proof.
  induction trios as [|t trios IH]; simpl; [discriminate|].
  destruct (trio_matches board t) eqn:Ht; simpl.
  - intros Hp. apply trio_matches_completed in Ht as [q Hq].
    assert (q = p) as -> by (destruct Hq as (Hq & _); congruence).
    exists t. repeat split; try apply Hq; auto. now rewrite Hp.
  - intros Hp. destruct (IH Hp) as (t' & Hin & Hh & Heq). eauto 6.
Qed.

Lemma winner_none_lineless (board : Board) :
  winner (evaluateWinner board) = None <-> lineless board.
Proof.
  split.
  - intros Hw t Hin Hc.
    destruct (first_completed board WINNING_TRIOS) as
      (before & trio & after & p & Heq & Hb & Hp); [eauto|].
    unfold evaluateWinner in Hw. rewrite Heq in Hw.
    now rewrite (scan_trios_first _ _ _ _ _ Hb Hp) in Hw.
  - intros H. now rewrite evaluateWinner_lineless.
Qed.

Lemma every_Boolean_full (board : Board) :
  every_Boolean board = true <-> full board.
Proof.
  unfold every_Boolean, full, empty_at. rewrite forallb_forall. split.
  - intros H i Hi. apply list_elem_of_lookup_2, list_elem_of_In in Hi.
    now apply H in Hi.
  - intros H [p|] Hin; [reflexivity|].
    apply list_elem_of_In, list_elem_of_lookup_1 in Hin as [i Hi].
    now apply H in Hi.
Qed.

Lemma every_Boolean_not_full (board : Board) :
  every_Boolean board = false <-> exists i, empty_at board i.
Proof.
  unfold every_Boolean, empty_at. split.
  - induction board as [|[p|] board IH]; simpl; try discriminate.
    + intros H. destruct (IH H) as [i Hi]. now exists (S i).
    + intros _. now exists 0.
  - intros [i Hi]. apply not_true_is_false. intros H.
    apply every_Boolean_full in H. now apply (H i).
Qed.

(** ** The measure of the search *)

Lemma empties_le_length (board : Board) : empties board <= length board.
Proof. induction board as [|[p|] board IH]; simpl; lia. Qed.

Lemma empties_set (board : Board) (i : nat) (p : Player) :
  empty_at board i -> S (empties (set_cell board i (Some p))) = empties board.
Proof.
  unfold empty_at, set_cell. revert i.
  induction board as [|c board IH]; intros [|i] H; simpl in *; try discriminate.
  - now injection H as ->.
  - destruct c; simpl; rewrite <- (IH i H); reflexivity.
Qed.

Lemma Math_max_finite (scores : list Num) :
  Forall finite scores -> scores <> [] -> finite (Math_max scores).
Proof.
  assert (Hacc : forall l z, Forall finite l -> finite (fold_left num_max l (Fin z))).
  { induction l as [|s l IH]; intros z Hl; simpl; [now exists z|].
    inversion Hl as [|? ? [z' ->] Hl']; subst.
    unfold num_max; simpl. destruct (z <? z')%Z; now apply IH. }
  intros Hl Hne. destruct Hl as [|s l [z ->] Hl]; [congruence|].
  unfold Math_max. simpl. now apply Hacc.
Qed.

Lemma Math_min_finite (scores : list Num) :
  Forall finite scores -> scores <> [] -> finite (Math_min scores).
Proof.
  assert (Hacc : forall l z, Forall finite l -> finite (fold_left num_min l (Fin z))).
  { induction l as [|s l IH]; intros z Hl; simpl; [now exists z|].
    inversion Hl as [|? ? [z' ->] Hl']; subst.
    unfold num_min; simpl. destruct (z' <? z)%Z; now apply IH. }
  intros Hl Hne. destruct Hl as [|s l [z ->] Hl]; [congruence|].
  unfold Math_min. simpl. now apply Hacc.
Qed.

Lemma finite_scores (scores : list Num) :
  Forall finite scores -> exists zs, scores = map Fin zs.
Proof.
  induction 1 as [|s scores [z ->] _ [zs ->]]; [now exists []|].
  now exists (z :: zs).
Qed.

Lemma fold_Z_max_greatest (zs : list Z) (z : Z) :
  In (fold_left Z.max zs z) (z :: zs)
  /\ forall x, In x (z :: zs) -> (x <= fold_left Z.max zs z)%Z.
Proof.
  revert z. induction zs as [|y zs IH]; intros z; simpl.
  - split; [now left|]. intros x [->|[]]. lia.
  - destruct (IH (Z.max z y)) as [Hin Hle]. split.
    + destruct Hin as [Hin|Hin]; [|now right; right].
      rewrite <- Hin. destruct (Z.max_spec z y) as [[_ ->]|[_ ->]]; auto.
    + intros x [->|[->|Hx]].
      * etransitivity; [|apply Hle; now left]. apply Z.le_max_l.
      * etransitivity; [|apply Hle; now left]. apply Z.le_max_r.
      * apply Hle. now right.
Qed.

Lemma fold_Z_min_least (zs : list Z) (z : Z) :
  In (fold_left Z.min zs z) (z :: zs)
  /\ forall x, In x (z :: zs) -> (fold_left Z.min zs z <= x)%Z.
Proof.
  revert z. induction zs as [|y zs IH]; intros z; simpl.
  - split; [now left|]. intros x [->|[]]. lia.
  - destruct (IH (Z.min z y)) as [Hin Hle]. split.
    + destruct Hin as [Hin|Hin]; [|now right; right].
      rewrite <- Hin. destruct (Z.min_spec z y) as [[_ ->]|[_ ->]]; auto.
    + intros x [->|[->|Hx]].
      * etransitivity; [apply Hle; now left|]. apply Z.le_min_l.
      * etransitivity; [apply Hle; now left|]. apply Z.le_min_r.
      * apply Hle. now right.
Qed.

(** [Math.max] of integers is their greatest, [Math.min] their least. *)
Lemma Math_max_Fin (z : Z) (zs : list Z) :
  Math_max (map Fin (z :: zs)) = Fin (fold_left Z.max zs z).
Proof.
  unfold Math_max. simpl. change (num_max NegInf (Fin z)) with (Fin z).
  revert z. induction zs as [|y zs IH]; intros z; simpl; [reflexivity|].
  rewrite <- IH. f_equal. unfold num_max. simpl.
  destruct (Z.ltb_spec z y); f_equal; lia.
Qed.

Lemma Math_min_Fin (z : Z) (zs : list Z) :
  Math_min (map Fin (z :: zs)) = Fin (fold_left Z.min zs z).
Proof.
  unfold Math_min. simpl. change (num_min PosInf (Fin z)) with (Fin z).
  revert z. induction zs as [|y zs IH]; intros z; simpl; [reflexivity|].
  rewrite <- IH. f_equal. unfold num_min. simpl.
  destruct (Z.ltb_spec y z); f_equal; lia.
Qed.

(** ** The empty cells, in ascending order *)

Lemma available_of_In (board : Board) (i : nat) :
  In i (available_of board) <-> empty_at board i.
Proof.
  unfold available_of. rewrite filter_In, in_seq. split.
  - intros [[_ Hi] Hn]. apply cell_at_empty; [assumption|].
    now destruct (cell_at board i).
  - intros H. destruct (empty_at_cell _ _ H) as [-> Hi]. split; [lia|reflexivity].
Qed.

Lemma available_of_nil (board : Board) :
  available_of board = [] <-> full board.
Proof.
  split.
  - intros H i Hi. apply available_of_In in Hi. rewrite H in Hi. destruct Hi.
  - intros H. destruct (available_of board) as [|i l] eqn:E; [reflexivity|].
    exfalso. apply (H i), available_of_In. rewrite E. now left.
Qed.

Lemma find_filter {A} (f g : A -> bool) (l : list A) :
  find f (List.filter g l) = find (fun x => g x && f x) l.
Proof.
  induction l as [|x l IH]; simpl; [reflexivity|].
  destruct (g x); simpl; [|assumption]. now destruct (f x).
Qed.

(** [find] over an interval finds the least index that passes. *)
Lemma find_seq_least (f : nat -> bool) (n a : nat) :
  match find f (seq a n) with
  | Some i => a <= i < a + n /\ f i = true /\ forall j, a <= j < i -> f j = false
  | None => forall j, a <= j < a + n -> f j = false
  end.
Proof.
  revert a. induction n as [|n IH]; intros a; simpl; [lia|].
  destruct (f a) eqn:Fa.
  - repeat split; try lia; auto.
  - specialize (IH (S a)). destruct (find f (seq (S a) n)) as [i|].
    + destruct IH as (Hi & Fi & Hj). repeat split; try lia; auto.
      intros j Hj'. destruct (Nat.eq_dec j a) as [->|]; [assumption|].
      apply Hj. lia.
    + intros j Hj. destruct (Nat.eq_dec j a) as [->|]; [assumption|].
      apply IH. lia.
Qed.

(** ** [minimax]: the loop, the result and the board after the call *)

Section MinimaxLoop.

(** The recursive calls the loop may be run with: any of a class [R], all
    of which, on the board with [current] placed in the empty cell [i],
    restore the board and return a score that satisfies [Q i]. *)
Variable R : Search Num -> Prop.
Variable Q : nat -> Num -> Prop.
Variable current : Player.
Variable board : Board.

Hypothesis recurse_ok :
  forall i, empty_at board i ->
    exists s, Q i s
      /\ forall recurse, R recurse ->
           recurse (set_cell board i (Some current))
           = Some (s, set_cell board i (Some current)).

Lemma minimax_loop_spec (indices : list nat) :
  (forall i, In i indices -> i < length board) ->
  forall scores, exists new,
    Forall2 Q (List.filter (fun i => is_null (cell_at board i)) indices) new
    /\ forall recurse, R recurse ->
         minimax_loop recurse current indices scores board
         = Some (scores ++ new, board).
Proof.
  induction indices as [|i rest IH]; intros Hrange scores.
  - exists []. split; [constructor|]. intros recurse _. simpl.
    unfold ret. now rewrite app_nil_r.
  - assert (Hrest : forall j, In j rest -> j < length board)
      by (intros j Hj; apply Hrange; now right).
    simpl. destruct (cell_at board i) as [p|] eqn:Hcell; simpl.
    + destruct (IH Hrest scores) as (new & Hnew & Hrun).
      exists new. split; [assumption|]. intros recurse Hrec.
      unfold bind, read. rewrite Hcell. now apply Hrun.
    + assert (Hempty : empty_at board i)
        by (apply cell_at_empty; [apply Hrange; now left|assumption]).
      destruct (recurse_ok i Hempty) as (s & Hs & Hcall).
      destruct (IH Hrest (scores ++ [s])) as (new & Hnew & Hrun).
      exists (s :: new). split; [now constructor|]. intros recurse Hrec.
      unfold bind, read, write. rewrite Hcell. simpl.
      rewrite (Hcall recurse Hrec), set_cell_undo by assumption.
      rewrite (Hrun recurse Hrec), <- app_assoc. reflexivity.
Qed.

End MinimaxLoop.

(** With more fuel than empty cells, [minimax] returns an integer, the same
    for every such fuel, and leaves the board as it found it. *)
Lemma minimax_fuel_spec (n : nat) :
  forall (board : Board) (depth : Z) (isMaximising : bool) (ai human : Player),
    empties board <= n ->
    exists z, forall fuel, n < fuel ->
      minimax_fuel fuel depth isMaximising ai human board = Some (Fin z, board).
Proof.
  induction n as [|n IH]; intros board depth isMaximising ai human Hn.
  all: destruct (cell_is (winner (evaluateWinner board)) ai) eqn:Hai;
    [exists (10 - depth)%Z; intros [|fuel] Hf; [lia|];
     simpl; unfold bind, read; now rewrite Hai|].
  all: destruct (cell_is (winner (evaluateWinner board)) human) eqn:Hhu;
    [exists (depth - 10)%Z; intros [|fuel] Hf; [lia|];
     simpl; unfold bind, read; now rewrite Hai, Hhu|].
  all: destruct (every_Boolean board) eqn:Hfull;
    [exists 0%Z; intros [|fuel] Hf; [lia|];
     simpl; unfold bind, read; now rewrite Hai, Hhu, Hfull|].
  all: pose proof Hfull as Hsome;
    apply every_Boolean_not_full in Hsome as [i0 Hi0];
    pose proof (empties_set board i0 ai Hi0) as Hpos.
  - lia.
  - set (current := if isMaximising then ai else human).
    destruct (minimax_loop_spec
                (fun recurse => exists fuel, n < fuel /\ recurse =
                   minimax_fuel fuel (depth + 1) (negb isMaximising) ai human)
                (fun _ s => finite s) current board) with
      (indices := seq 0 (length board)) (scores := @nil Num)
      as (new & Hnew & Hrun).
    { intros i Hi.
      destruct (IH (set_cell board i (Some current)) (depth + 1)%Z
                  (negb isMaximising) ai human) as [z Hz].
      { pose proof (empties_set board i current Hi). lia. }
      exists (Fin z). split; [now exists z|].
      intros recurse (fuel & Hfuel & ->). now apply Hz. }
    { intros i Hi. apply in_seq in Hi. lia. }
    assert (Hfin : Forall finite new).
    { clear -Hnew. induction Hnew; constructor; auto. }
    assert (Hne : new <> []).
    { intros ->. inversion Hnew as [Hnil|]; subst.
      assert (Hin : In i0 (available_of board)) by now apply available_of_In.
      unfold available_of in Hin. rewrite <- Hnil in Hin. destruct Hin. }
    assert (Hagg : finite (if isMaximising then Math_max new else Math_min new)).
    { destruct isMaximising;
        [apply Math_max_finite|apply Math_min_finite]; assumption. }
    destruct Hagg as [z Hz]. exists z. intros [|fuel] Hf; [lia|].
    simpl. unfold bind at 1, read. rewrite Hai, Hhu, Hfull.
    unfold bind. fold current. rewrite Hrun; [|exists fuel; split; [lia|reflexivity]].
    simpl. unfold ret. now rewrite Hz.
Qed.

Lemma minimax_fuel_indep (board : Board) (depth : Z) (isMaximising : bool)
    (ai human : Player) (fuel fuel' : nat) :
  empties board < fuel -> empties board < fuel' ->
  minimax_fuel fuel depth isMaximising ai human board
  = minimax_fuel fuel' depth isMaximising ai human board.
Proof.
  intros H H'.
  destruct (minimax_fuel_spec (empties board) board depth isMaximising ai human)
    as [z Hz]; [lia|].
  now rewrite (Hz fuel H), (Hz fuel' H').
Qed.

Lemma minimax_fuel_minimax (board : Board) (depth : Z) (isMaximising : bool)
    (ai human : Player) (fuel : nat) :
  empties board < fuel ->
  minimax_fuel fuel depth isMaximising ai human board
  = minimax depth isMaximising ai human board.
Proof.
  intros H. unfold minimax. apply minimax_fuel_indep; [assumption|].
  pose proof (empties_le_length board). lia.
Qed.

Lemma minimax_total (board : Board) (depth : Z) (isMaximising : bool)
    (ai human : Player) :
  exists z, minimax depth isMaximising ai human board = Some (Fin z, board).
Proof.
  destruct (minimax_fuel_spec (length board) board depth isMaximising ai human)
    as [z Hz]; [apply empties_le_length|].
  exists z. apply Hz. lia.
Qed.

(** The loop of a non-terminal call, run with the recursive call itself:
    one score for each empty cell, in ascending order. *)
Lemma minimax_loop_minimax (board : Board) (depth : Z) (isMaximising : bool)
    (ai human current : Player) (fuel : nat) :
  empties board <= fuel ->
  exists scores,
    Forall2 (fun i s =>
               minimax depth isMaximising ai human (set_cell board i (Some current))
               = Some (s, set_cell board i (Some current)))
            (available_of board) scores
    /\ Forall finite scores
    /\ minimax_loop (minimax_fuel fuel depth isMaximising ai human) current
         (seq 0 (length board)) [] board = Some (scores, board)
    /\ minimax_loop (minimax depth isMaximising ai human) current
         (seq 0 (length board)) [] board = Some (scores, board).
Proof.
  intros Hfuel.
  destruct (minimax_loop_spec
              (fun recurse => recurse = minimax_fuel fuel depth isMaximising ai human
                              \/ recurse = minimax depth isMaximising ai human)
              (fun i s => finite s /\
                 minimax depth isMaximising ai human (set_cell board i (Some current))
                 = Some (s, set_cell board i (Some current)))
              current board) with
    (indices := seq 0 (length board)) (scores := @nil Num)
    as (new & Hnew & Hrun).
  { intros i Hi.
    destruct (minimax_total (set_cell board i (Some current)) depth
                isMaximising ai human) as [z Hz].
    exists (Fin z). split; [split; [now exists z|assumption]|].
    intros recurse [->| ->]; [|assumption].
    rewrite minimax_fuel_minimax; [assumption|].
    pose proof (empties_set board i current Hi). lia. }
  { intros i Hi. apply in_seq in Hi. lia. }
  exists new. split; [|split; [|split]].
  - unfold available_of. clear -Hnew. induction Hnew; constructor; tauto.
  - clear -Hnew. induction Hnew; constructor; tauto.
  - apply Hrun. now left.
  - apply Hrun. now right.
Qed.

(** ** [pickBestMove]: the tactical loops *)

Lemma tactical_spec (mark : Player) (board : Board) (moves : list nat) :
  (forall move, In move moves -> empty_at board move) ->
  tactical mark moves board
  = Some (find (fun move =>
                  cell_is (winner (evaluateWinner (set_cell board move (Some mark))))
                          mark) moves,
          board).
Proof.
  induction moves as [|move rest IH]; intros Hempty; [reflexivity|].
  assert (Hmove : empty_at board move) by (apply Hempty; now left).
  simpl. unfold bind, write, read. simpl.
  destruct (cell_is _ mark); simpl; rewrite set_cell_undo by assumption.
  - reflexivity.
  - apply IH. intros m Hm. apply Hempty. now right.
Qed.

Lemma tactical_available (mark : Player) (board : Board) :
  tactical mark (available_of board) board = Some (first_win board mark, board).
Proof. apply tactical_spec. intros move. apply available_of_In. Qed.

Lemma reports_win_test (board : Board) (mark : Player) (i : nat) :
  reports_win board i mark
  <-> i < length board
      /\ is_null (cell_at board i)
         && cell_is (winner (evaluateWinner (set_cell board i (Some mark)))) mark
         = true.
Proof.
  unfold reports_win. rewrite andb_true_iff, cell_is_eq. split.
  - intros [He Hw]. destruct (empty_at_cell _ _ He) as [Hc Hi].
    rewrite Hc. auto.
  - intros (Hi & Hn & Hw). split; [|assumption].
    apply cell_at_empty; [assumption|]. now destruct (cell_at board i).
Qed.

(** The tactical loop returns the smallest index where the evaluator
    reports the mark. *)
Lemma first_win_Some (board : Board) (mark : Player) (i : nat) :
  first_win board mark = Some i
  <-> reports_win board i mark
      /\ forall j, j < i -> ~ reports_win board j mark.
Proof.
  unfold first_win, available_of. rewrite find_filter.
  pose proof (find_seq_least
    (fun x => is_null (cell_at board x)
              && cell_is (winner (evaluateWinner (set_cell board x (Some mark)))) mark)
    (length board) 0) as Hleast.
  destruct (find _ (seq 0 (length board))) as [k|].
  - destruct Hleast as (Hk & Fk & Hj).
    assert (Hkwin : reports_win board k mark)
      by (apply reports_win_test; split; [lia|assumption]).
    assert (Hkleast : forall j, j < k -> ~ reports_win board j mark).
    { intros j Hjk Hw. apply reports_win_test in Hw as [_ Hw].
      rewrite Hj in Hw by lia. discriminate. }
    split.
    + intros [= <-]. auto.
    + intros [Hw Hmin]. f_equal.
      destruct (Nat.lt_trichotomy k i) as [Hlt|[->|Hlt]]; [|reflexivity|].
      * now apply Hmin in Hlt.
      * now apply Hkleast in Hlt.
  - split; [discriminate|]. intros [Hw _].
    apply reports_win_test in Hw as [Hi Hw].
    rewrite Hleast in Hw by lia. discriminate.
Qed.

Lemma first_win_None (board : Board) (mark : Player) :
  first_win board mark = None <-> forall j, ~ reports_win board j mark.
Proof.
  split.
  - intros Hnone j Hw.
    unfold first_win, available_of in Hnone. rewrite find_filter in Hnone.
    pose proof (find_seq_least
      (fun x => is_null (cell_at board x)
         && cell_is (winner (evaluateWinner (set_cell board x (Some mark)))) mark)
      (length board) 0) as Hleast.
    rewrite Hnone in Hleast. apply reports_win_test in Hw as [Hj Hw].
    rewrite Hleast in Hw by lia. discriminate.
  - intros H. destruct (first_win board mark) as [i|] eqn:E; [|reflexivity].
    apply first_win_Some in E as [Hi _]. now apply H in Hi.
Qed.

(** ** [pickBestMove]: the mistake draw and the search loop *)

Lemma makes_mistake_perfect (r : Q) : (0 <= r)%Q -> makes_mistake perfect r = false.
Proof.
  intros Hr. unfold makes_mistake, mistakes.
  apply negb_false_iff, Qle_bool_iff, Hr.
Qed.

(** For a draw of [[0, 1)], the random choice is one of the moves. *)
Lemma random_choice_In (available : list nat) (r : Q) :
  Home.draw r -> available <> [] ->
  exists move, random_choice available r = MoveAt move /\ In move available.
Proof.
  intros [H0 H1] Hne. unfold random_choice.
  set (len := Z.of_nat (length available)).
  assert (Hlen : (0 < len)%Z) by (destruct available; [congruence|]; subst len; simpl; lia).
  set (k := Qfloor (r * inject_Z len)).
  assert (Hk0 : (0 <= k)%Z).
  { replace 0%Z with (Qfloor 0) by reflexivity.
    apply Qfloor_resp_le, Qmult_le_0_compat; [assumption|].
    unfold Qle. simpl. lia. }
  assert (Hk1 : (k < len)%Z).
  { rewrite Zlt_Qlt. apply Qle_lt_trans with (r * inject_Z len)%Q; [apply Qfloor_le|].
    rewrite <- (Qmult_1_l (inject_Z len)) at 2.
    apply Qmult_lt_compat_r; [|assumption].
    unfold Qlt. simpl. lia. }
  destruct (k <? 0)%Z eqn:Hneg; [apply Z.ltb_lt in Hneg; lia|].
  destruct (lookup_lt_is_Some_2 available (Z.to_nat k)) as [move Hmove];
    [subst len; lia|].
  rewrite Hmove. exists move. split; [reflexivity|].
  eapply list_elem_of_In, list_elem_of_lookup_2, Hmove.
Qed.

(** The search loop returns one of the moves it was given (or the initial
    choice), and leaves the board as it found it. *)
Lemma search_loop_spec (fuel : nat) (ai human : Player) (board : Board)
    (moves : list nat) :
  empties board <= fuel ->
  (forall move, In move moves -> empty_at board move) ->
  forall bestScore chosenMove, exists chosen,
    (chosen = chosenMove \/ In chosen moves)
    /\ search_loop fuel ai human moves bestScore chosenMove board
       = Some (chosen, board).
Proof.
  intros Hfuel. induction moves as [|move rest IH]; intros Hempty bestScore chosenMove.
  - exists chosenMove. split; [now left|reflexivity].
  - assert (Hmove : empty_at board move) by (apply Hempty; now left).
    assert (Hrest : forall m, In m rest -> empty_at board m)
      by (intros m Hm; apply Hempty; now right).
    destruct (minimax_total (set_cell board move (Some ai)) 0 false ai human)
      as [z Hz].
    rewrite <- (minimax_fuel_minimax _ _ _ _ _ fuel) in Hz
      by (pose proof (empties_set board move ai Hmove); lia).
    simpl. unfold bind, write. simpl. rewrite Hz. simpl.
    rewrite set_cell_undo by assumption.
    destruct (num_ltb bestScore (Fin z)).
    + destruct (IH Hrest (Fin z) move) as (chosen & Hc & Hrun).
      exists chosen. split; [|assumption].
      right. destruct Hc as [->|Hin]; simpl; auto.
    + destruct (IH Hrest bestScore chosenMove) as (chosen & Hc & Hrun).
      exists chosen. split; [|assumption].
      destruct Hc as [->|Hin]; [now left|right; simpl; auto].
Qed.

(** [pickBestMove], step by step. *)
Lemma pickBestMove_fuel_steps (fuel : nat) (ai human : Player)
    (difficulty : Difficulty) (r1 r2 : Q) (board : Board) :
  pickBestMove_fuel fuel ai human difficulty r1 r2 board
  = match available_of board with
    | [] => Some (MoveNull, board)
    | first :: _ =>
        match first_win board ai with
        | Some move => Some (MoveAt move, board)
        | None =>
            match first_win board human with
            | Some move => Some (MoveAt move, board)
            | None =>
                if makes_mistake difficulty r1
                then Some (random_choice (available_of board) r2, board)
                else
                  match search_loop fuel ai human (available_of board)
                          NegInf first board with
                  | Some (chosen, board') => Some (MoveAt chosen, board')
                  | None => None
                  end
            end
        end
    end.
Proof.
  unfold pickBestMove_fuel, bind at 1, read.
  destruct (available_of board) as [|first rest] eqn:E; [reflexivity|].
  rewrite <- E. unfold bind at 1. rewrite tactical_available.
  destruct (first_win board ai); [reflexivity|].
  unfold bind at 1. rewrite tactical_available.
  destruct (first_win board human); [reflexivity|].
  destruct (makes_mistake difficulty r1); [reflexivity|].
  unfold bind, ret. now destruct (search_loop _ _ _ _ _ _ _) as [[c b]|].
Qed.


Lemma pickBestMove_fuel_block (fuel : nat) (ai human : Player)
    (difficulty : Difficulty) (r1 r2 : Q) (board : Board) (move : nat) :
  first_win board ai = None ->
  first_win board human = Some move ->
  pickBestMove_fuel fuel ai human difficulty r1 r2 board
  = Some (MoveAt move, board).
Proof.
  intros Hwin Hblock. rewrite pickBestMove_fuel_steps, Hwin, Hblock.
  destruct (available_of board) eqn:E; [|reflexivity].
  unfold first_win in Hblock. rewrite E in Hblock. discriminate.
Qed.

(** ** Completing a line, and what the evaluator reports *)

(** A line of another mark than the one just placed was there before. *)
Lemma holds_before_placement (board : Board) (i : nat) (p q : Player) (t : Trio) :
  i < length board -> q <> p ->
  holds (set_cell board i (Some p)) t q -> holds board t q.
Proof.
  intros Hi Hqp. unfold holds.
  assert (Hcell : forall a, cell_at (set_cell board i (Some p)) a = Some q ->
                            cell_at board a = Some q).
  { intros a Ha. destruct (Nat.eq_dec i a) as [<-|Hne].
    - rewrite cell_at_set_eq in Ha by assumption. congruence.
    - now rewrite cell_at_set_ne in Ha. }
  intros (Ha & Hb & Hc). auto.
Qed.

(** On a board with no completed line, the evaluator reports [p] after a
    placement exactly when the placement completes a line for [p]. *)
Lemma reports_win_completes (board : Board) (i : nat) (p : Player) :
  lineless board -> (reports_win board i p <-> completes board i p).
Proof.
  intros Hlineless. unfold reports_win, completes. split.
  - intros [He Hw]. split; [assumption|].
    apply scan_trios_winner in Hw as (t & Hin & Hh & _).
    exists t. auto.
  - intros [He (t & Hin & Hh & _)]. split; [assumption|].
    destruct (empty_at_cell _ _ He) as [_ Hi].
    destruct (first_completed (set_cell board i (Some p)) WINNING_TRIOS)
      as (before & trio & after & q & Heq & Hb & Hq).
    { exists t. split; [assumption|now exists p]. }
    unfold evaluateWinner. rewrite Heq, (scan_trios_first _ _ _ _ _ Hb Hq).
    simpl. f_equal. destruct (player_eqb q p) eqn:E.
    + now apply player_eqb_eq.
    + exfalso. apply player_eqb_neq in E.
      apply (Hlineless trio); [rewrite Heq; apply in_elt|].
      exists q. eapply holds_before_placement; eauto.
Qed.

(** ** The functions on boards written out *)

Example evaluateWinner_column :
  evaluateWinner [Some O; Some X; None;
                  Some O; Some X; None;
                  None; Some X; None]
  = mkEvaluation (Some X) (Some (1, 4, 7)).
Proof. reflexivity. Qed.

Example evaluateWinner_row_before_diagonal :
  evaluateWinner [Some X; Some X; Some X;
                  Some O; Some X; Some O;
                  Some O; Some O; Some X]
  = mkEvaluation (Some X) (Some (0, 1, 2)).
Proof. reflexivity. Qed.

(** A win is taken before a block: [O] completes its row at 5 although [X]
    threatens at 2. *)
Example pickBestMove_win_before_block :
  let board := [Some X; Some X; None;
                Some O; Some O; None;
                None; None; None] in
  pickBestMove O X balanced 0 0 board = Some (MoveAt 5, board).
Proof. vm_compute. reflexivity. Qed.

Example pickBestMove_last_cell :
  let board := [Some X; Some O; Some X;
                Some X; Some O; Some O;
                Some O; Some X; None] in
  pickBestMove O X relaxed 0 0 board = Some (MoveAt 8, board).
Proof. vm_compute. reflexivity. Qed.

Example pickBestMove_full_board :
  let board := [Some X; Some O; Some X;
                Some X; Some O; Some O;
                Some O; Some X; Some X] in
  pickBestMove O X perfect 0 0 board = Some (MoveNull, board).
Proof. vm_compute. reflexivity. Qed.

(** A mistake at difficulty ["relaxed"]: the second draw picks among the
    empty cells. *)
Example pickBestMove_mistake :
  let board := [Some X; None; None; None; None; None; None; None; None] in
  pickBestMove O X relaxed (1 # 2) (99 # 100) board = Some (MoveAt 8, board).
Proof. vm_compute. reflexivity. Qed.

Example pickBestMove_centre_reply :
  let board := [Some X; None; None; None; None; None; None; None; None] in
  pickBestMove O X relaxed (3 # 5) 0 board = Some (MoveAt 4, board).
Proof. vm_compute. reflexivity. Qed.

Example minimax_lost_position :
  let board := [Some X; Some X; None;
                Some X; Some O; Some O;
                None; None; Some O] in
  minimax 0 false O X board = Some (Fin (-9), board).
Proof. vm_compute. reflexivity. Qed.

(** ** Claims about the win evaluator *)

(** A full board with no completed line, and the evaluator's result on it. *)
Lemma drawn_board_full_lineless :
  let drawn := [Some X; Some O; Some X;
                Some X; Some O; Some O;
                Some O; Some X; Some X] in
  full drawn /\ lineless drawn.
Proof.
  split.
  - apply every_Boolean_full. reflexivity.
  - apply winner_none_lineless. reflexivity.
Qed.

(** C1, as stated, fails: on a full board with no completed line
    [evaluateWinner] returns [{ winner: null, line: null }], which is not
    the outcome ["tie"] and is the very result it returns on the empty
    board, a board that is not full and has no line. *)
Lemma evaluateWinner_never_tie :
  let drawn := [Some X; Some O; Some X;
                Some X; Some O; Some O;
                Some O; Some X; Some X] in
  length drawn = 9 /\ full drawn /\ lineless drawn
  /\ option_map Won (winner (evaluateWinner drawn)) <> Some Tie
  /\ lineless emptyBoard /\ ~ full emptyBoard
  /\ evaluateWinner drawn = evaluateWinner emptyBoard.
Proof.
  pose proof drawn_board_full_lineless as [Hfull Hline]. simpl in *.
  repeat split; try assumption.
  - discriminate.
  - apply winner_none_lineless. reflexivity.
  - intros H. apply every_Boolean_full in H. discriminate.
Qed.

(** C1, amended: on every board with no completed line, full or not,
    [evaluateWinner] returns no winner and no line; the outcome ["tie"] with
    no line is what the caller [makeMove] records when the move it applies
    leaves such a board full, and it records no outcome when the board is
    not full. *)
Theorem evaluateWinner_lineless_makeMove_tie (board : Board) :
  lineless board ->
  evaluateWinner board = mkEvaluation None None
  /\ forall (s : Home.State) (index : nat) (player : Player),
       Home.winner s = None ->
       empty_at (Home.board s) index ->
       set_cell (Home.board s) index (Some player) = board ->
       (full board ->
        Home.winner (Home.makeMove s index player) = Some Tie
        /\ Home.highlightLine (Home.makeMove s index player) = None)
       /\ (~ full board -> Home.winner (Home.makeMove s index player) = None).
Proof.
  intros Hline. pose proof (evaluateWinner_lineless _ Hline) as Heval.
  split; [assumption|]. intros s index player Hw He Hnext.
  destruct (empty_at_cell _ _ He) as [Hcell _].
  unfold Home.makeMove. rewrite Hw, Hcell, Hnext, Heval.
  split; intros Hfull.
  - apply every_Boolean_full in Hfull. now rewrite Hfull.
  - destruct (every_Boolean _) eqn:E; [|reflexivity].
    now apply every_Boolean_full in E.
Qed.

Lemma evaluateWinner_lineless_makeMove_tie_witness :
  let drawn := [Some X; Some O; Some X;
                Some X; Some O; Some O;
                Some O; Some X; Some X] in
  let s := Home.mkState O [Some X; Some O; Some X;
                           Some X; Some O; Some O;
                           Some O; Some X; None] X None None in
  evaluateWinner drawn = mkEvaluation None None
  /\ Home.winner (Home.makeMove s 8 X) = Some Tie
  /\ Home.highlightLine (Home.makeMove s 8 X) = None.
Proof.
  intros drawn s.
  destruct (evaluateWinner_lineless_makeMove_tie drawn) as [Heval Hmove].
  - apply drawn_board_full_lineless.
  - split; [exact Heval|].
    refine (proj1 (Hmove s 8 X _ _ _) _).
    + reflexivity.
    + reflexivity.
    + reflexivity.
    + apply drawn_board_full_lineless.
Defined.

(** C6: on a board with a completed winning line, [evaluateWinner] returns
    the first completed line of [WINNING_TRIOS] and the mark it holds, and
    [WINNING_TRIOS] lists the rows top to bottom, then the columns left to
    right, then the diagonal from the top left and the one from the top
    right. *)
Theorem evaluateWinner_first_line (board : Board) :
  (exists t, In t WINNING_TRIOS /\ completed board t) ->
  WINNING_TRIOS = rows ++ columns ++ diagonals
  /\ exists before trio after p,
       WINNING_TRIOS = before ++ trio :: after
       /\ Forall (fun t => ~ completed board t) before
       /\ holds board trio p
       /\ evaluateWinner board = mkEvaluation (Some p) (Some trio).
Proof.
  intros Hex. split; [reflexivity|].
  destruct (first_completed board WINNING_TRIOS Hex)
    as (before & trio & after & p & Heq & Hb & Hp).
  exists before, trio, after, p. repeat split; try assumption; try apply Hp.
  unfold evaluateWinner. rewrite Heq. now apply scan_trios_first.
Qed.

Lemma evaluateWinner_first_line_witness :
  let board := [Some O; None; Some X;
                Some O; Some X; None;
                Some O; Some X; Some X] in
  WINNING_TRIOS = rows ++ columns ++ diagonals
  /\ exists before trio after p,
       WINNING_TRIOS = before ++ trio :: after
       /\ Forall (fun t => ~ completed board t) before
       /\ holds board trio p
       /\ evaluateWinner board = mkEvaluation (Some p) (Some trio).
Proof.
  intros board. apply (evaluateWinner_first_line board).
  exists (0, 3, 6). split.
  - simpl. tauto.
  - exists O. repeat split.
Defined.

(** ** Claims about the tactical checks of [pickBestMove] *)



(** C3: if no empty cell gives [ai] an immediate win, and there is an empty
    cell where placing [human] would complete a winning line for [human],
    that is, where the win evaluator reports [human] with the mark placed,
    [pickBestMove] returns the smallest such cell, on every board, for
    every difficulty and every draw.  On a board with no completed line
    the evaluator reports a mark after a placement exactly when the
    placement completes a line that was not complete. *)
Theorem pickBestMove_immediate_block (board : Board) (ai human : Player)
    (difficulty : Difficulty) (r1 r2 : Q) (i : nat) :
  (forall j, ~ reports_win board j ai) ->
  reports_win board i human ->
  (forall j, j < i -> ~ reports_win board j human) ->
  pickBestMove ai human difficulty r1 r2 board = Some (MoveAt i, board)
  /\ (forall fuel,
        pickBestMove_fuel fuel ai human difficulty r1 r2 board
        = Some (MoveAt i, board))
  /\ (lineless board ->
      forall j p, reports_win board j p <-> completes board j p).
Proof.
  intros Hnowin Hi Hmin.
  assert (Hwin : first_win board ai = None) by now apply first_win_None.
  assert (Hblock : first_win board human = Some i) by now apply first_win_Some.
  split; [now apply pickBestMove_fuel_block|].
  split; [intros fuel; now apply pickBestMove_fuel_block|].
  intros Hline j p. now apply reports_win_completes.
Qed.

(** The human, [X], has two in the top row, the bot no winning cell; the
    move is the blocking cell 2. *)
Lemma pickBestMove_immediate_block_witness :
  let board := [Some X; Some X; None;
                Some O; None; None;
                None; None; None] in
  pickBestMove O X relaxed 0 0 board = Some (MoveAt 2, board)
  /\ (forall fuel,
        pickBestMove_fuel fuel O X relaxed 0 0 board = Some (MoveAt 2, board))
  /\ (lineless board ->
      forall j p, reports_win board j p <-> completes board j p).
Proof.
  intros board.
  pose proof (proj1 (first_win_None board O) eq_refl) as Hnowin.
  destruct (proj1 (first_win_Some board X 2) eq_refl) as [Hblock Hmin].
  exact (pickBestMove_immediate_block board O X relaxed 0 0 2 Hnowin Hblock Hmin).
Defined.

(** ** Claims about the result of [pickBestMove] *)

(** [pickBestMove] returns, restores the board, and gives [null] on a full
    board and otherwise [undefined] or one of the empty cells. *)
Lemma pickBestMove_result (board : Board) (ai human : Player)
    (difficulty : Difficulty) (r1 r2 : Q) :
  exists move,
    pickBestMove ai human difficulty r1 r2 board = Some (move, board)
    /\ (full board -> move = MoveNull)
    /\ (~ full board ->
        (move = random_choice (available_of board) r2
         /\ makes_mistake difficulty r1 = true)
        \/ exists i, move = MoveAt i /\ empty_at board i).
Proof.
  unfold pickBestMove. rewrite pickBestMove_fuel_steps.
  destruct (available_of board) as [|first rest] eqn:E.
  { exists MoveNull. split; [reflexivity|]. split; [reflexivity|].
    intros Hnf. exfalso. now apply Hnf, available_of_nil. }
  assert (Hnf : ~ full board).
  { intros Hf. apply available_of_nil in Hf. congruence. }
  rewrite <- E.
  destruct (first_win board ai) as [m|] eqn:Hwin.
  { exists (MoveAt m). split; [reflexivity|]. split; [tauto|].
    intros _. right. exists m. split; [reflexivity|].
    now apply first_win_Some in Hwin as [[He _] _]. }
  destruct (first_win board human) as [m|] eqn:Hblock.
  { exists (MoveAt m). split; [reflexivity|]. split; [tauto|].
    intros _. right. exists m. split; [reflexivity|].
    now apply first_win_Some in Hblock as [[He _] _]. }
  destruct (makes_mistake difficulty r1) eqn:Hmistake.
  { exists (random_choice (available_of board) r2).
    split; [reflexivity|]. split; [tauto|]. intros _. now left. }
  destruct (search_loop_spec (S (length board)) ai human board
              (available_of board)) with (bestScore := NegInf)
    (chosenMove := first) as (chosen & Hchosen & Hrun).
  { pose proof (empties_le_length board). lia. }
  { intros m. apply available_of_In. }
  rewrite Hrun. exists (MoveAt chosen). split; [reflexivity|]. split; [tauto|].
  intros _. right. exists chosen. split; [reflexivity|].
  apply available_of_In. destruct Hchosen as [->|Hin]; [|assumption].
  rewrite E. now left.
Qed.

(** C4: on a 9-cell board, for draws of [[0, 1)], [pickBestMove] returns
    [null] exactly when no cell is empty, and any other value it returns is
    an index from 0 to 8 whose cell is empty in the board it was given. *)
Theorem pickBestMove_null_iff_full (board : Board) (ai human : Player)
    (difficulty : Difficulty) (r1 r2 : Q) :
  length board = 9 ->
  Home.draw r1 -> Home.draw r2 ->
  exists move,
    pickBestMove ai human difficulty r1 r2 board = Some (move, board)
    /\ (move = MoveNull <-> full board)
    /\ (move <> MoveNull ->
        exists i, move = MoveAt i /\ i <= 8 /\ empty_at board i).
Proof.
  intros Hlen _ Hr2.
  destruct (pickBestMove_result board ai human difficulty r1 r2)
    as (move & Hrun & Hfull & Hmove).
  assert (Hindex : ~ full board -> exists i, move = MoveAt i /\ empty_at board i).
  { intros Hnf. destruct (Hmove Hnf) as [[-> _]|Hi]; [|assumption].
    destruct (random_choice_In (available_of board) r2 Hr2) as (i & -> & Hin).
    - intros Hnil. now apply Hnf, available_of_nil.
    - exists i. split; [reflexivity|]. now apply available_of_In. }
  exists move. split; [assumption|]. split; [split; [|assumption]|].
  - intros ->. destruct (every_Boolean board) eqn:E.
    + now apply every_Boolean_full.
    + exfalso. destruct Hindex as (i & Hi & _); [|discriminate].
      intros Hf. apply every_Boolean_full in Hf. congruence.
  - intros Hne. destruct Hindex as (i & -> & He).
    + intros Hf. now apply Hne, Hfull.
    + exists i. split; [reflexivity|]. split; [|assumption].
      destruct (empty_at_cell _ _ He) as [_ Hi]. lia.
Qed.

Lemma pickBestMove_null_iff_full_witness :
  exists move,
    pickBestMove O X relaxed (1 # 2) (3 # 4) emptyBoard = Some (move, emptyBoard)
    /\ (move = MoveNull <-> full emptyBoard)
    /\ (move <> MoveNull ->
        exists i, move = MoveAt i /\ i <= 8 /\ empty_at emptyBoard i).
Proof.
  apply (pickBestMove_null_iff_full emptyBoard O X relaxed (1 # 2) (3 # 4)).
  - reflexivity.
  - split; reflexivity || discriminate.
  - split; reflexivity || discriminate.
Defined.

(** C7: [pickBestMove] returns with the board array equal, cell for cell,
    to the board it was given, and so does every call of [minimax], at
    every fuel that lets it return: each hypothetical placement is undone. *)
Theorem pickBestMove_restores_board (board : Board) (ai human : Player)
    (difficulty : Difficulty) (r1 r2 : Q) (depth : Z) (isMaximising : bool) :
  (exists move,
     pickBestMove ai human difficulty r1 r2 board = Some (move, board))
  /\ (exists score,
        minimax depth isMaximising ai human board = Some (score, board)
        /\ forall fuel, empties board < fuel ->
             minimax_fuel fuel depth isMaximising ai human board
             = Some (score, board)).
Proof.
  split.
  - destruct (pickBestMove_result board ai human difficulty r1 r2)
      as (move & Hrun & _). now exists move.
  - destruct (minimax_total board depth isMaximising ai human) as [z Hz].
    exists (Fin z). split; [assumption|]. intros fuel Hfuel.
    now rewrite minimax_fuel_minimax.
Qed.

(** C8: at difficulty ["perfect"] the mistake probability is 0, the mistake
    branch is taken for no draw of [[0, 1)], and [pickBestMove] returns the
    same result for any two pairs of draws. *)
Theorem pickBestMove_perfect_deterministic (board : Board) (ai human : Player)
    (r1 r2 r1' r2' : Q) :
  Home.draw r1 -> Home.draw r2 -> Home.draw r1' -> Home.draw r2' ->
  mistakes perfect = 0%Q
  /\ makes_mistake perfect r1 = false
  /\ pickBestMove ai human perfect r1 r2 board
     = pickBestMove ai human perfect r1' r2' board.
Proof.
  intros [H1 _] _ [H1' _] _. split; [reflexivity|].
  split; [now apply makes_mistake_perfect|].
  unfold pickBestMove. rewrite !pickBestMove_fuel_steps.
  now rewrite (makes_mistake_perfect r1), (makes_mistake_perfect r1').
Qed.

Lemma pickBestMove_perfect_deterministic_witness :
  let board := [Some X; None; None; None; Some O; None; None; None; Some X] in
  mistakes perfect = 0%Q
  /\ makes_mistake perfect (1 # 10) = false
  /\ pickBestMove O X perfect (1 # 10) (9 # 10) board
     = pickBestMove O X perfect (1 # 2) 0 board.
Proof.
  intros board.
  apply (pickBestMove_perfect_deterministic board O X (1 # 10) (9 # 10) (1 # 2) 0);
    split; reflexivity || discriminate.
Defined.

(** ** Claims about [minimax] *)

(** A call that passes the three terminal tests runs the loop. *)
Lemma minimax_unfold (board : Board) (depth : Z) (isMaximising : bool)
    (ai human : Player) :
  cell_is (winner (evaluateWinner board)) ai = false ->
  cell_is (winner (evaluateWinner board)) human = false ->
  every_Boolean board = false ->
  exists scores,
    Forall2 (fun i s =>
               minimax (depth + 1) (negb isMaximising) ai human
                 (set_cell board i (Some (if isMaximising then ai else human)))
               = Some (s, set_cell board i
                            (Some (if isMaximising then ai else human))))
            (available_of board) scores
    /\ Forall finite scores
    /\ scores <> []
    /\ minimax_loop (minimax (depth + 1) (negb isMaximising) ai human)
         (if isMaximising then ai else human) (seq 0 (length board)) [] board
       = Some (scores, board)
    /\ minimax depth isMaximising ai human board
       = Some (if isMaximising then Math_max scores else Math_min scores, board).
Proof.
  intros Hai Hhu Hfull.
  destruct (minimax_loop_minimax board (depth + 1) (negb isMaximising) ai human
              (if isMaximising then ai else human) (length board))
    as (scores & Hscores & Hfin & Hrun & Hrun'); [apply empties_le_length|].
  exists scores. repeat split; try assumption.
  - intros ->. inversion Hscores as [Hnil|]; subst.
    apply every_Boolean_not_full in Hfull as [i Hi].
    apply available_of_In in Hi. rewrite <- Hnil in Hi. destruct Hi.
  - unfold minimax. simpl. unfold bind at 1, read.
    rewrite Hai, Hhu, Hfull. unfold bind. now rewrite Hrun.
Qed.

Lemma Forall2_map_Fin {A} (P : A -> Num -> Prop) (l : list A) (zs : list Z) :
  Forall2 P l (map Fin zs) -> Forall2 (fun a z => P a (Fin z)) l zs.
Proof.
  revert l. induction zs as [|z zs IH]; intros l H; inversion H; subst;
    constructor; auto.
Qed.

(** C5: for distinct marks, [minimax] returns [10 - depth] when the
    evaluator reports [ai], [depth - 10] when it reports [human], [0] on a
    full board with no winner, and otherwise the greatest (when maximising)
    or the least (when not) of the scores it returns, at [depth + 1] and
    with the flag flipped, on the boards that have the mark to move placed
    in each empty cell in turn. *)
Theorem minimax_equations (board : Board) (depth : Z) (isMaximising : bool)
    (ai human : Player) :
  ai <> human ->
  (winner (evaluateWinner board) = Some ai ->
   minimax depth isMaximising ai human board = Some (Fin (10 - depth), board))
  /\ (winner (evaluateWinner board) = Some human ->
      minimax depth isMaximising ai human board = Some (Fin (depth - 10), board))
  /\ (winner (evaluateWinner board) = None -> full board ->
      minimax depth isMaximising ai human board = Some (Fin 0, board))
  /\ (winner (evaluateWinner board) = None -> ~ full board ->
      let current := if isMaximising then ai else human in
      exists (scores : list Z) (best : Z),
        Forall2 (fun i z =>
                   minimax (depth + 1) (negb isMaximising) ai human
                     (set_cell board i (Some current))
                   = Some (Fin z, set_cell board i (Some current)))
                (available_of board) scores
        /\ minimax depth isMaximising ai human board = Some (Fin best, board)
        /\ In best scores
        /\ forall z, In z scores ->
             if isMaximising then (z <= best)%Z else (best <= z)%Z).
Proof.
  intros Hdistinct.
  assert (E : player_eqb human ai = false) by (apply player_eqb_neq; congruence).
  split; [|split; [|split]].
  - intros Hw. unfold minimax. simpl. unfold bind, read.
    rewrite Hw. simpl. now rewrite player_eqb_refl.
  - intros Hw. unfold minimax. simpl. unfold bind, read.
    rewrite Hw. simpl. now rewrite E, player_eqb_refl.
  - intros Hw Hfull. unfold minimax. simpl. unfold bind, read.
    rewrite Hw. simpl. apply every_Boolean_full in Hfull. now rewrite Hfull.
  - intros Hw Hnf current.
    destruct (minimax_unfold board depth isMaximising ai human)
      as (scores & Hscores & Hfin & Hne & _ & Hrun).
    + now rewrite Hw.
    + now rewrite Hw.
    + destruct (every_Boolean board) eqn:Hb; [|reflexivity].
      now apply every_Boolean_full in Hb.
    + destruct (finite_scores scores Hfin) as [[|z zs] ->]; [easy|].
      apply Forall2_map_Fin in Hscores.
      destruct isMaximising.
      * rewrite Math_max_Fin in Hrun.
        destruct (fold_Z_max_greatest zs z) as [Hin Hle].
        exists (z :: zs), (fold_left Z.max zs z). auto.
      * rewrite Math_min_Fin in Hrun.
        destruct (fold_Z_min_least zs z) as [Hin Hle].
        exists (z :: zs), (fold_left Z.min zs z). auto.
Qed.

Lemma minimax_equations_witness :
  let board := [Some X; Some O; Some X;
                Some X; Some O; Some O;
                Some O; None; None] in
  exists (scores : list Z) (best : Z),
    Forall2 (fun i z =>
               minimax 8 false X O (set_cell board i (Some X))
               = Some (Fin z, set_cell board i (Some X)))
            (available_of board) scores
    /\ minimax 7 true X O board = Some (Fin best, board)
    /\ In best scores
    /\ forall z, In z scores -> (z <= best)%Z.
Proof.
  intros board.
  refine (proj2 (proj2 (proj2 (minimax_equations board 7 true X O _))) _ _).
  - discriminate.
  - reflexivity.
  - intros H. apply every_Boolean_full in H. discriminate.
Defined.

(** C10: a call of [minimax] that passes the terminal tests is on a board
    with an empty cell, so the scores it collects are not an empty list and
    [Math.max] and [Math.min] get at least one argument; and on every
    board [minimax] returns, with an integer and never an infinity. *)
Theorem minimax_returns_integer (board : Board) (depth : Z)
    (isMaximising : bool) (ai human : Player) :
  (exists z, minimax depth isMaximising ai human board = Some (Fin z, board))
  /\ (cell_is (winner (evaluateWinner board)) ai = false ->
      cell_is (winner (evaluateWinner board)) human = false ->
      every_Boolean board = false ->
      available_of board <> []
      /\ exists scores,
           scores <> []
           /\ Forall finite scores
           /\ minimax_loop (minimax (depth + 1) (negb isMaximising) ai human)
                (if isMaximising then ai else human) (seq 0 (length board)) []
                board
              = Some (scores, board)
           /\ minimax depth isMaximising ai human board
              = Some (if isMaximising then Math_max scores else Math_min scores,
                      board)).
Proof.
  split; [apply minimax_total|]. intros Hai Hhu Hfull. split.
  - intros Hnil. apply available_of_nil, every_Boolean_full in Hnil. congruence.
  - destruct (minimax_unfold board depth isMaximising ai human Hai Hhu Hfull)
      as (scores & _ & Hfin & Hne & Hloop & Hrun).
    exists scores. auto.
Qed.

(** ** Rounds against the bot at difficulty ["perfect"] *)

Lemma makeMove_humanSymbol (s : Home.State) (index : nat) (player : Player) :
  Home.humanSymbol (Home.makeMove s index player) = Home.humanSymbol s.
Proof.
  unfold Home.makeMove.
  destruct (Home.winner s); [reflexivity|].
  destruct (cell_at (Home.board s) index); [reflexivity|].
  destruct (evaluateWinner _) as [[p|] l]; [reflexivity|].
  now destruct (every_Boolean _).
Qed.

Lemma handleSquareClick_humanSymbol (s : Home.State) (index : nat) :
  Home.humanSymbol (Home.handleSquareClick s index) = Home.humanSymbol s.
Proof.
  unfold Home.handleSquareClick.
  destruct (Home.winner s); [reflexivity|].
  destruct (cell_at (Home.board s) index); [reflexivity|].
  destruct (player_eqb _ _); [apply makeMove_humanSymbol|reflexivity].
Qed.

Lemma botEffect_humanSymbol (s s' : Home.State) (difficulty : Difficulty)
    (r1 r2 : Q) :
  Home.botEffect s difficulty r1 r2 = Some s' ->
  Home.humanSymbol s' = Home.humanSymbol s.
Proof.
  unfold Home.botEffect.
  destruct (Home.winner s); [now intros [= <-]|].
  destruct (player_eqb _ _); [|now intros [= <-]].
  destruct (pickBestMove _ _ _ _ _ _) as [[[| |move] b]|]; try discriminate.
  - now intros [= <-].
  - intros [= <-]. apply makeMove_humanSymbol.
Qed.

Lemma step_humanSymbol (difficulty : Difficulty) (s s' : Home.State) :
  Home.step difficulty s s' -> Home.humanSymbol s' = Home.humanSymbol s.
Proof.
  intros [s0 index _|s0 r1 r2 s1 _ _ Hbot].
  - apply handleSquareClick_humanSymbol.
  - eapply botEffect_humanSymbol, Hbot.
Qed.

(** At difficulty ["perfect"] the bot's effect does not depend on the draws. *)
Lemma botEffect_perfect (s : Home.State) (r1 r2 : Q) :
  Home.draw r1 ->
  Home.botEffect s perfect r1 r2 = Home.botEffect s perfect 0 0.
Proof.
  intros [H1 _]. unfold Home.botEffect, pickBestMove.
  rewrite !pickBestMove_fuel_steps.
  rewrite (makes_mistake_perfect r1 H1).
  now rewrite (makes_mistake_perfect 0) by discriminate.
Qed.

(** A step from a state that the exploration accepts either leaves the
    state as it is or leads to a state that the exploration accepts. *)
Lemma bot_never_loses_step (fuel : nat) (s s' : Home.State) :
  bot_never_loses (S fuel) s = true ->
  Home.step perfect s s' ->
  s' = s \/ bot_never_loses fuel s' = true.
Proof.
  intros Hsafe Hstep. simpl in Hsafe.
  apply andb_true_iff in Hsafe as [_ Hsafe].
  destruct Hstep as [s index Hindex|s r1 r2 s' Hr1 _ Hbot].
  - unfold Home.handleSquareClick in *.
    destruct (Home.winner s) eqn:Hw; [now left|].
    destruct (cell_at (Home.board s) index) eqn:Hcell; [now left|].
    destruct (player_eqb (Home.currentPlayer s) (Home.humanSymbol s)) eqn:Hturn;
      [|now left].
    right.
    assert (Hbot : player_eqb (Home.currentPlayer s) (Home.botSymbol s) = false).
    { apply player_eqb_eq in Hturn. rewrite Hturn.
      unfold Home.botSymbol. now destruct (Home.humanSymbol s). }
    rewrite Hbot in Hsafe. apply andb_true_iff in Hsafe as [_ Hsafe].
    rewrite forallb_forall in Hsafe.
    specialize (Hsafe index). rewrite Hcell in Hsafe. apply Hsafe.
    apply available_of_In, cell_at_empty; assumption.
  - rewrite botEffect_perfect in Hbot by assumption.
    unfold Home.botEffect in Hbot.
    destruct (Home.winner s); [left; congruence|].
    destruct (player_eqb (Home.currentPlayer s) (Home.botSymbol s));
      [|left; congruence].
    destruct (pickBestMove _ _ _ _ _ _) as [[[| |move] b]|]; try discriminate.
    right. now injection Hbot as <-.
Qed.

Lemma bot_never_loses_rtc (s s' : Home.State) :
  rtc (Home.step perfect) s s' ->
  forall fuel, bot_never_loses fuel s = true ->
  exists fuel', bot_never_loses fuel' s' = true.
Proof.
  induction 1 as [s|s s1 s' Hstep _ IH]; intros fuel Hsafe; [eauto|].
  destruct fuel as [|fuel]; [discriminate|].
  destruct (bot_never_loses_step fuel s s1 Hsafe Hstep) as [->|Hsafe1]; eauto.
Qed.

Lemma bot_never_loses_start (human starter : Player) :
  bot_never_loses 10 (Home.startFreshBoard human starter) = true.
Proof. destruct human, starter; vm_cast_no_check (eq_refl true). Qed.

Lemma reachable_accepted (human starter : Player) (s : Home.State) :
  Home.reachable perfect human starter s ->
  exists fuel, bot_never_loses (S fuel) s = true.
Proof.
  intros Hreach.
  destruct (bot_never_loses_rtc _ _ Hreach 10 (bot_never_loses_start human starter))
    as [[|fuel] Hsafe]; [discriminate|eauto].
Qed.

Lemma reachable_humanSymbol (difficulty : Difficulty) (human starter : Player)
    (s : Home.State) :
  Home.reachable difficulty human starter s -> Home.humanSymbol s = human.
Proof.
  unfold Home.reachable. intros Hreach.
  apply (rtc_ind_r (R := Home.step difficulty)
           (fun s => Home.humanSymbol s = human)
           (Home.startFreshBoard human starter)); [reflexivity| |exact Hreach].
  intros s1 s2 _ Hstep IH. rewrite <- IH. eapply step_humanSymbol, Hstep.
Qed.

Lemma makeMove_board (s : Home.State) (index : nat) (player : Player) :
  Home.winner s = None -> empty_at (Home.board s) index ->
  Home.board (Home.makeMove s index player)
  = set_cell (Home.board s) index (Some player).
Proof.
  intros Hw He. destruct (empty_at_cell _ _ He) as [Hcell _].
  unfold Home.makeMove. rewrite Hw, Hcell.
  destruct (evaluateWinner _) as [[p|] l]; [reflexivity|].
  now destruct (every_Boolean _).
Qed.

Lemma set_cell_changes (board : Board) (i : nat) (p : Player) :
  empty_at board i -> set_cell board i (Some p) <> board.
Proof.
  intros He Heq. destruct (empty_at_cell _ _ He) as [Hcell Hi].
  pose proof (cell_at_set_eq board i (Some p) Hi) as Hset.
  rewrite Heq in Hset. congruence.
Qed.

(** In an accepted state where the round is not over, a move can be made. *)
Lemma bot_never_loses_progress (fuel : nat) (s : Home.State) :
  bot_never_loses (S fuel) s = true ->
  Home.winner s = None ->
  exists s', Home.step perfect s s' /\ Home.board s' <> Home.board s.
Proof.
  intros Hsafe Hw. simpl in Hsafe. rewrite Hw in Hsafe.
  apply andb_true_iff in Hsafe as [_ Hsafe].
  destruct (player_eqb (Home.currentPlayer s) (Home.botSymbol s)) eqn:Hturn.
  - destruct (pickBestMove_result (Home.board s) (Home.botSymbol s)
                (Home.humanSymbol s) perfect 0 0) as (move & Hrun & Hfull & Hmove).
    rewrite Hrun in Hsafe. destruct move as [| |m]; try discriminate.
    assert (Hm : empty_at (Home.board s) m).
    { destruct Hmove as [[_ Hmistake]|(i & [= <-] & Hi)]; [| |assumption].
      - intros Hf. now apply Hfull in Hf.
      - rewrite makes_mistake_perfect in Hmistake; discriminate. }
    exists (Home.makeMove s m (Home.botSymbol s)). split.
    + apply Home.step_bot with (r1 := 0%Q) (r2 := 0%Q);
        try (split; reflexivity || discriminate).
      unfold Home.botEffect. now rewrite Hw, Hturn, Hrun.
    + rewrite makeMove_board by assumption. now apply set_cell_changes.
  - apply andb_true_iff in Hsafe as [Hnf _]. apply negb_true_iff in Hnf.
    apply every_Boolean_not_full in Hnf as [i Hi].
    destruct (empty_at_cell _ _ Hi) as [Hcell Hlt].
    assert (Hhuman : player_eqb (Home.currentPlayer s) (Home.humanSymbol s) = true).
    { revert Hturn. unfold Home.botSymbol.
      now destruct (Home.currentPlayer s), (Home.humanSymbol s). }
    exists (Home.handleSquareClick s i). split.
    + now apply Home.step_click.
    + unfold Home.handleSquareClick. rewrite Hw, Hcell, Hhuman.
      rewrite makeMove_board by assumption. now apply set_cell_changes.
Qed.

Lemma has_line_holds (board : Board) (p : Player) :
  has_line board p = false ->
  forall t, In t WINNING_TRIOS -> ~ holds board t p.
Proof.
  intros Hnone t Hin (Ha & Hb & Hc).
  assert (Hsome : has_line board p = true); [|congruence].
  apply existsb_exists. exists t. split; [assumption|].
  now rewrite Ha, Hb, Hc, !(proj2 (cell_is_eq _ _) eq_refl).
Qed.

(** C9: in every round from the empty board, whoever starts, in which the
    bot's moves are those of [pickBestMove] at difficulty ["perfect"] and
    the human clicks squares at will, no state has a winning line with
    three marks of the human, the evaluator never reports the human's mark,
    a round that is over was won by the bot or is a tie, and a round that
    is not over has a next move. *)
Theorem perfect_bot_never_loses (human starter : Player) (s : Home.State) :
  Home.reachable perfect human starter s ->
  Home.humanSymbol s = human
  /\ (forall t, In t WINNING_TRIOS -> ~ holds (Home.board s) t human)
  /\ winner (evaluateWinner (Home.board s)) <> Some human
  /\ (forall w, Home.winner s = Some w -> w = Won (nextPlayer human) \/ w = Tie)
  /\ (Home.winner s = None ->
      exists s', Home.step perfect s s' /\ Home.board s' <> Home.board s).
Proof.
  intros Hreach.
  pose proof (reachable_humanSymbol _ _ _ _ Hreach) as Hhuman.
  destruct (reachable_accepted _ _ _ Hreach) as [fuel Hsafe].
  split; [assumption|].
  assert (Hwon : human_won s = false).
  { simpl in Hsafe. apply andb_true_iff in Hsafe as [Hsafe _].
    now apply negb_true_iff in Hsafe. }
  unfold human_won in Hwon.
  apply orb_false_iff in Hwon as [Hwon Hcells].
  apply orb_false_iff in Hwon as [Hround Hline].
  rewrite Hhuman in Hround, Hline, Hcells.
  split; [now apply has_line_holds|].
  split; [now apply cell_is_neq|]. split.
  - intros [p|] Hw; [left|now right]. rewrite Hw in Hround.
    apply player_eqb_neq in Hround. f_equal.
    destruct p, human; simpl; congruence.
  - now apply bot_never_loses_progress with fuel.
Qed.

(** A round the bot wins: the human, [X], starts in a corner, the bot
    searches and takes the centre, blocks the top row at 2, and when the
    human leaves the diagonal open completes it at 6. *)
Lemma perfect_bot_never_loses_witness :
  let s := Home.mkState X
             [Some X; Some X; Some O;
              Some X; Some O; None;
              Some O; None; None]
             O (Some (Won O)) (Some (2, 4, 6)) in
  Home.humanSymbol s = X
  /\ (forall t, In t WINNING_TRIOS -> ~ holds (Home.board s) t X)
  /\ winner (evaluateWinner (Home.board s)) <> Some X
  /\ (forall w, Home.winner s = Some w -> w = Won (nextPlayer X) \/ w = Tie)
  /\ (Home.winner s = None ->
      exists s', Home.step perfect s s' /\ Home.board s' <> Home.board s).
Proof.
  intros s. apply (perfect_bot_never_loses X X s). unfold Home.reachable.
  (* the human plays 0 *)
  eapply rtc_l; [apply (Home.step_click perfect _ 0); simpl; lia|]. normalize_state.
  (* the bot searches: 4 *)
  eapply rtc_l;
    [apply Home.step_bot with (r1 := 0%Q) (r2 := 0%Q);
     [split; reflexivity || discriminate
     |split; reflexivity || discriminate
     |vm_compute; reflexivity]|].
  (* the human plays 1, the bot blocks at 2 *)
  eapply rtc_l; [apply (Home.step_click perfect _ 1); simpl; lia|]. normalize_state.
  eapply rtc_l;
    [apply Home.step_bot with (r1 := 0%Q) (r2 := 0%Q);
     [split; reflexivity || discriminate
     |split; reflexivity || discriminate
     |vm_compute; reflexivity]|].
  (* the human plays 3, the bot completes 2-4-6 *)
  eapply rtc_l; [apply (Home.step_click perfect _ 3); simpl; lia|]. normalize_state.
  eapply rtc_l;
    [apply Home.step_bot with (r1 := 0%Q) (r2 := 0%Q);
     [split; reflexivity || discriminate
     |split; reflexivity || discriminate
     |vm_compute; reflexivity]|].
  apply rtc_refl.
Defined.

(** * Further properties of the code *)

(** ** The win evaluator *)

(** X1: whatever the board, [evaluateWinner] returns either no winner and
    no line, on a board with no completed line, or a mark together with
    one of the eight lines, whose three cells hold that mark. *)
Theorem evaluateWinner_sound (board : Board) :
  (evaluateWinner board = mkEvaluation None None /\ lineless board)
  \/ (exists p t,
        evaluateWinner board = mkEvaluation (Some p) (Some t)
        /\ In t WINNING_TRIOS /\ holds board t p).
Proof.
  destruct (winner (evaluateWinner board)) as [p|] eqn:Hw.
  - right. apply scan_trios_winner in Hw as (t & Hin & Hh & Heq). eauto.
  - left. apply winner_none_lineless in Hw.
    split; [now apply evaluateWinner_lineless|assumption].
Qed.

(** A completed line of the board after a placement that was not complete
    before goes through the cell just played and holds the mark played. *)
Lemma new_line_through_move (board : Board) (i : nat) (p q : Player) (t : Trio) :
  empty_at board i ->
  ~ completed board t ->
  holds (set_cell board i (Some p)) t q ->
  q = p /\ (i = fst (fst t) \/ i = snd (fst t) \/ i = snd t).
Proof.
  intros He Hnot Hq. destruct (empty_at_cell _ _ He) as [Hcell Hi].
  assert (Hthrough : i = fst (fst t) \/ i = snd (fst t) \/ i = snd t).
  { destruct (Nat.eq_dec i (fst (fst t))); [tauto|].
    destruct (Nat.eq_dec i (snd (fst t))); [tauto|].
    destruct (Nat.eq_dec i (snd t)); [tauto|].
    exfalso. apply Hnot. exists q. destruct Hq as (Ha & Hb & Hc).
    rewrite cell_at_set_ne in Ha, Hb, Hc by assumption. now repeat split. }
  split; [|assumption].
  destruct Hq as (Ha & Hb & Hc).
  destruct Hthrough as [E|[E|E]]; rewrite <- E in *;
    rewrite cell_at_set_eq in * by assumption; congruence.
Qed.

(** X2: on a board with no completed line, a mark placed in an empty cell
    can only make its own player win: the evaluator then reports nothing or
    that mark, and the line it returns goes through the cell played. *)
Theorem evaluateWinner_after_move (board : Board) (i : nat) (p : Player) :
  lineless board ->
  empty_at board i ->
  evaluateWinner (set_cell board i (Some p)) = mkEvaluation None None
  \/ exists t,
       evaluateWinner (set_cell board i (Some p)) = mkEvaluation (Some p) (Some t)
       /\ In t WINNING_TRIOS
       /\ (i = fst (fst t) \/ i = snd (fst t) \/ i = snd t).
Proof.
  intros Hline He.
  destruct (winner (evaluateWinner (set_cell board i (Some p)))) as [q|] eqn:Hw.
  - right. apply scan_trios_winner in Hw as (t & Hin & Hq & Heval).
    fold (evaluateWinner (set_cell board i (Some p))) in Heval.
    destruct (new_line_through_move board i p q t He (Hline t Hin) Hq) as [-> Hi].
    exists t. auto.
  - left. now apply evaluateWinner_lineless, winner_none_lineless.
Qed.

Lemma evaluateWinner_after_move_witness :
  let board := [Some X; None; None;
                None; Some X; Some O;
                None; Some O; None] in
  evaluateWinner (set_cell board 8 (Some X)) = mkEvaluation None None
  \/ exists t,
       evaluateWinner (set_cell board 8 (Some X)) = mkEvaluation (Some X) (Some t)
       /\ In t WINNING_TRIOS
       /\ (8 = fst (fst t) \/ 8 = snd (fst t) \/ 8 = snd t).
Proof.
  intros board. apply (evaluateWinner_after_move board 8 X).
  - apply winner_none_lineless. reflexivity.
  - reflexivity.
Defined.

(** ** [minimax] *)

Lemma minimax_ai_wins (board : Board) (depth : Z) (isMaximising : bool)
    (ai human : Player) :
  cell_is (winner (evaluateWinner board)) ai = true ->
  minimax depth isMaximising ai human board = Some (Fin (10 - depth), board).
Proof.
  intros H. unfold minimax. simpl. unfold bind, read. now rewrite H.
Qed.

Lemma minimax_human_wins (board : Board) (depth : Z) (isMaximising : bool)
    (ai human : Player) :
  cell_is (winner (evaluateWinner board)) ai = false ->
  cell_is (winner (evaluateWinner board)) human = true ->
  minimax depth isMaximising ai human board = Some (Fin (depth - 10), board).
Proof.
  intros Ha Hh. unfold minimax. simpl. unfold bind, read. now rewrite Ha, Hh.
Qed.

Lemma minimax_full_board (board : Board) (depth : Z) (isMaximising : bool)
    (ai human : Player) :
  cell_is (winner (evaluateWinner board)) ai = false ->
  cell_is (winner (evaluateWinner board)) human = false ->
  every_Boolean board = true ->
  minimax depth isMaximising ai human board = Some (Fin 0, board).
Proof.
  intros Ha Hh Hf. unfold minimax. simpl. unfold bind, read.
  now rewrite Ha, Hh, Hf.
Qed.

(** A call past the terminal tests: the scores of the empty cells, and the
    greatest or the least of them. *)
Lemma minimax_children (board : Board) (depth : Z) (isMaximising : bool)
    (ai human : Player) :
  cell_is (winner (evaluateWinner board)) ai = false ->
  cell_is (winner (evaluateWinner board)) human = false ->
  every_Boolean board = false ->
  exists (zs : list Z) (best : Z),
    Forall2 (fun i z =>
               minimax (depth + 1) (negb isMaximising) ai human
                 (set_cell board i (Some (if isMaximising then ai else human)))
               = Some (Fin z, set_cell board i
                                (Some (if isMaximising then ai else human))))
            (available_of board) zs
    /\ minimax depth isMaximising ai human board = Some (Fin best, board)
    /\ In best zs
    /\ forall z, In z zs ->
         if isMaximising then (z <= best)%Z else (best <= z)%Z.
Proof.
  intros Ha Hh Hf.
  destruct (minimax_unfold board depth isMaximising ai human Ha Hh Hf)
    as (scores & Hscores & Hfin & Hne & _ & Hrun).
  destruct (finite_scores scores Hfin) as [[|z zs] ->]; [easy|].
  apply Forall2_map_Fin in Hscores.
  destruct isMaximising.
  - rewrite Math_max_Fin in Hrun.
    destruct (fold_Z_max_greatest zs z) as [Hin Hle].
    exists (z :: zs), (fold_left Z.max zs z). auto.
  - rewrite Math_min_Fin in Hrun.
    destruct (fold_Z_min_least zs z) as [Hin Hle].
    exists (z :: zs), (fold_left Z.min zs z). auto.
Qed.

Lemma Forall2_pick_l {A B} (P : A -> B -> Prop) (l : list A) (k : list B) (a : A) :
  Forall2 P l k -> In a l -> exists b, In b k /\ P a b.
Proof.
  induction 1 as [|x y l k Hxy _ IH]; intros Hin; [easy|].
  destruct Hin as [->|Hin].
  - exists y. split; [now left|assumption].
  - destruct (IH Hin) as (b & Hb & Hab). exists b. split; [now right|assumption].
Qed.

Lemma Forall2_pick_r {A B} (P : A -> B -> Prop) (l : list A) (k : list B) (b : B) :
  Forall2 P l k -> In b k -> exists a, In a l /\ P a b.
Proof.
  induction 1 as [|x y l k Hxy _ IH]; intros Hin; [easy|].
  destruct Hin as [->|Hin].
  - exists x. split; [now left|assumption].
  - destruct (IH Hin) as (a & Ha & Hab). exists a. split; [now right|assumption].
Qed.

(** Induction on the search: a property of the score that holds at the
    three terminal returns, and for the greatest or least of the scores of
    the empty cells when it holds for each of them, holds for every call. *)
Section MinimaxInduction.

Variables ai human : Player.
Variable P : Board -> Z -> bool -> Z -> Prop.

Hypothesis P_ai : forall (board : Board) (depth : Z) (isMaximising : bool),
  cell_is (winner (evaluateWinner board)) ai = true ->
  P board depth isMaximising (10 - depth).

Hypothesis P_human : forall (board : Board) (depth : Z) (isMaximising : bool),
  cell_is (winner (evaluateWinner board)) ai = false ->
  cell_is (winner (evaluateWinner board)) human = true ->
  P board depth isMaximising (depth - 10).

Hypothesis P_full : forall (board : Board) (depth : Z) (isMaximising : bool),
  cell_is (winner (evaluateWinner board)) ai = false ->
  cell_is (winner (evaluateWinner board)) human = false ->
  every_Boolean board = true ->
  P board depth isMaximising 0.

Hypothesis P_children : forall (board : Board) (depth : Z) (isMaximising : bool) (zs : list Z)
    (best : Z),
  cell_is (winner (evaluateWinner board)) ai = false ->
  cell_is (winner (evaluateWinner board)) human = false ->
  every_Boolean board = false ->
  Forall2 (fun i z =>
             let next := set_cell board i
                           (Some (if isMaximising then ai else human)) in
             empty_at board i
             /\ minimax (depth + 1) (negb isMaximising) ai human next
                = Some (Fin z, next)
             /\ P next (depth + 1) (negb isMaximising) z)
          (available_of board) zs ->
  In best zs ->
  (forall z, In z zs -> if isMaximising then (z <= best)%Z else (best <= z)%Z) ->
  P board depth isMaximising best.

Lemma minimax_induction (board : Board) (depth : Z) (isMaximising : bool) :
  exists z,
    minimax depth isMaximising ai human board = Some (Fin z, board)
    /\ P board depth isMaximising z.
Proof.
  remember (empties board) as n eqn:Hn.
  revert board depth isMaximising Hn.
  induction n as [n IH] using lt_wf_ind. intros board depth isMaximising Hn.
  destruct (cell_is (winner (evaluateWinner board)) ai) eqn:Ha.
  { exists (10 - depth)%Z. split; [now apply minimax_ai_wins|now apply P_ai]. }
  destruct (cell_is (winner (evaluateWinner board)) human) eqn:Hh.
  { exists (depth - 10)%Z.
    split; [now apply minimax_human_wins|now apply P_human]. }
  destruct (every_Boolean board) eqn:Hf.
  { exists 0%Z. split; [now apply minimax_full_board|now apply P_full]. }
  destruct (minimax_children board depth isMaximising ai human Ha Hh Hf)
    as (zs & best & Hzs & Hrun & Hin & Hbest).
  exists best. split; [assumption|].
  apply P_children with zs; try assumption.
  assert (Hall : forall i, In i (available_of board) -> empty_at board i)
    by (intros i; apply available_of_In).
  revert Hall. clear Hin Hbest Hrun.
  induction Hzs as [|i z l k Hiz _ IHl]; intros Hall; constructor.
  - assert (Hi : empty_at board i) by (apply Hall; now left).
    split; [assumption|]. split; [assumption|].
    destruct (IH (empties (set_cell board i
                    (Some (if isMaximising then ai else human)))))
      with (board := set_cell board i (Some (if isMaximising then ai else human)))
           (depth := (depth + 1)%Z) (isMaximising := negb isMaximising)
      as (z' & Hz' & HP); [|reflexivity|].
    + pose proof (empties_set board i (if isMaximising then ai else human) Hi).
      lia.
    + rewrite Hiz in Hz'. now injection Hz' as ->.
  - apply IHl. intros j Hj. apply Hall. now right.
Qed.

End MinimaxInduction.

(** Whatever a search returns is within the bounds of its depth. *)
Lemma minimax_bounded (board board' : Board) (depth : Z) (isMaximising : bool)
    (ai human : Player) (z : Z) :
  (depth + Z.of_nat (empties board) <= 10)%Z ->
  minimax depth isMaximising ai human board = Some (Fin z, board') ->
  (depth - 10 <= z <= 10 - depth)%Z.
Proof.
  intros Hdepth Hrun.
  destruct (minimax_induction ai human
              (fun board depth _ z =>
                 (depth + Z.of_nat (empties board) <= 10)%Z ->
                 (depth - 10 <= z <= 10 - depth)%Z))
    with (board := board) (depth := depth) (isMaximising := isMaximising)
    as (z' & Hz' & Hb).
  - intros; lia.
  - intros; lia.
  - intros; lia.
  - intros b d m zs best _ _ _ Hzs Hin _ Hd.
    destruct (Forall2_pick_r _ _ _ _ Hzs Hin) as (i & _ & Hi & _ & HP).
    pose proof (empties_set b i (if m then ai else human) Hi).
    assert (d + 1 - 10 <= best <= 10 - (d + 1))%Z by (apply HP; lia). lia.
  - rewrite Hrun in Hz'. injection Hz' as -> _. now apply Hb.
Qed.

(** X3: the score of a position with [k] empty cells, searched at a depth
    with [depth + k <= 10], lies between [depth - 10] and [10 - depth]; the
    scores [pickBestMove] compares, at depth 0, are between -10 and 10. *)
Theorem minimax_score_bounds (board : Board) (depth : Z) (isMaximising : bool)
    (ai human : Player) :
  (depth + Z.of_nat (empties board) <= 10)%Z ->
  exists z,
    minimax depth isMaximising ai human board = Some (Fin z, board)
    /\ (depth - 10 <= z <= 10 - depth)%Z.
Proof.
  intros Hdepth.
  destruct (minimax_total board depth isMaximising ai human) as [z Hz].
  exists z. split; [assumption|].
  now apply (minimax_bounded board board depth isMaximising ai human).
Qed.

Lemma minimax_score_bounds_witness :
  let board := [Some X; None; None; None; Some O; None; None; None; None] in
  exists z,
    minimax 0 true X O board = Some (Fin z, board) /\ (0 - 10 <= z <= 10 - 0)%Z.
Proof.
  intros board. apply (minimax_score_bounds board 0 true X O).
  vm_compute. discriminate.
Defined.

(** X4: a win in one move is scored as such.  On a board with no completed
    line, when the player to move has an empty cell that makes the
    evaluator report its mark, [minimax] returns the best score a position
    at that depth can have for that player: [9 - depth] when maximising,
    [depth - 9] when minimising. *)
Theorem minimax_win_in_one (board : Board) (depth : Z) (isMaximising : bool)
    (ai human : Player) (i : nat) :
  ai <> human ->
  winner (evaluateWinner board) = None ->
  (depth + Z.of_nat (empties board) <= 10)%Z ->
  reports_win board i (if isMaximising then ai else human) ->
  minimax depth isMaximising ai human board
  = Some (Fin (if isMaximising then 9 - depth else depth - 9), board).
Proof.
  intros Hdistinct Hw Hdepth [Hi Hwin].
  set (current := if isMaximising then ai else human) in *.
  assert (Hf : every_Boolean board = false)
    by (apply every_Boolean_not_full; eauto).
  destruct (minimax_children board depth isMaximising ai human)
    as (zs & best & Hzs & Hrun & Hin & Hbest);
    [now rewrite Hw|now rewrite Hw|assumption|].
  fold current in Hzs. rewrite Hrun. do 2 f_equal.
  (* every score is within the bounds of depth + 1 *)
  assert (Hbounds : forall z, In z zs -> (depth - 9 <= z <= 9 - depth)%Z).
  { intros z Hz. destruct (Forall2_pick_r _ _ _ _ Hzs Hz) as (j & Hj & Hjz).
    apply available_of_In in Hj.
    assert (Hb : (depth + 1 - 10 <= z <= 10 - (depth + 1))%Z).
    { apply (minimax_bounded _ _ _ _ _ _ _) with (2 := Hjz).
      pose proof (empties_set board j current Hj). lia. }
    lia. }
  (* the winning cell has the extreme score *)
  assert (Hcell : In i (available_of board)) by now apply available_of_In.
  destruct (Forall2_pick_l _ _ _ _ Hzs Hcell) as (zi & Hzi & Hiz).
  pose proof (Hbounds best Hin) as Hb. pose proof (Hbest zi Hzi) as Hle.
  subst current. destruct isMaximising; cbv iota in *.
  - rewrite minimax_ai_wins in Hiz by now apply cell_is_eq.
    injection Hiz as <-. f_equal. lia.
  - rewrite minimax_human_wins in Hiz.
    + injection Hiz as <-. f_equal. lia.
    + rewrite Hwin. simpl. apply player_eqb_neq. congruence.
    + now apply cell_is_eq.
Qed.

Lemma minimax_win_in_one_witness :
  let board := [Some X; Some X; None;
                Some O; Some O; None;
                None; None; None] in
  minimax 1 false O X board = Some (Fin (1 - 9), board).
Proof.
  intros board. apply (minimax_win_in_one board 1 false O X 2).
  - discriminate.
  - reflexivity.
  - vm_compute. discriminate.
  - split; reflexivity.
Defined.

(** X5: the search is zero-sum.  For distinct marks, exchanging the two
    roles, the maximiser with the minimiser and [ai] with [human], negates
    the score of every position. *)
Theorem minimax_zero_sum (board : Board) (depth : Z) (isMaximising : bool)
    (ai human : Player) :
  ai <> human ->
  exists z,
    minimax depth isMaximising ai human board = Some (Fin z, board)
    /\ minimax depth (negb isMaximising) human ai board
       = Some (Fin (- z), board).
Proof.
  intros Hdistinct.
  apply (minimax_induction ai human
           (fun board depth isMaximising z =>
              minimax depth (negb isMaximising) human ai board
              = Some (Fin (- z), board))).
  - intros b d m Ha. replace (- (10 - d))%Z with (d - 10)%Z by lia.
    apply minimax_human_wins; [|assumption].
    apply cell_is_eq in Ha. rewrite Ha. simpl.
    apply player_eqb_neq. congruence.
  - intros b d m Ha Hh. replace (- (d - 10))%Z with (10 - d)%Z by lia.
    now apply minimax_ai_wins.
  - intros b d m Ha Hh Hf. now apply minimax_full_board.
  - intros b d m zs best Ha Hh Hf Hzs Hin Hbest.
    destruct (minimax_children b d (negb m) human ai Hh Ha Hf)
      as (zs' & best' & Hzs' & Hrun' & Hin' & Hbest').
    rewrite Hrun'. do 2 f_equal.
    assert (Hcur : (if negb m then human else ai) = (if m then ai else human))
      by now destruct m.
    rewrite Hcur in Hzs'.
    (* the scores of the exchanged search are the opposites *)
    assert (Hopp : forall z, In z zs -> In (- z)%Z zs').
    { intros z Hz. destruct (Forall2_pick_r _ _ _ _ Hzs Hz) as (i & Hi & _ & _ & HP).
      destruct (Forall2_pick_l _ _ _ _ Hzs' Hi) as (z' & Hz' & Hiz').
      simpl in HP. rewrite HP in Hiz'. now injection Hiz' as <-. }
    assert (Hopp' : forall z', In z' zs' -> In (- z')%Z zs).
    { intros z' Hz'. destruct (Forall2_pick_r _ _ _ _ Hzs' Hz') as (i & Hi & Hiz').
      destruct (Forall2_pick_l _ _ _ _ Hzs Hi) as (z & Hz & _ & _ & HP).
      simpl in HP. rewrite HP in Hiz'. injection Hiz' as <-.
      now rewrite Z.opp_involutive. }
    pose proof (Hbest' _ (Hopp _ Hin)) as H1.
    pose proof (Hbest _ (Hopp' _ Hin')) as H2.
    destruct m; cbv iota in *; simpl negb in *; cbv iota in *; f_equal; lia.
Qed.

Lemma minimax_zero_sum_witness :
  let board := [Some X; Some X; None;
                Some O; Some O; None;
                None; None; None] in
  exists z,
    minimax 0 true X O board = Some (Fin z, board)
    /\ minimax 0 false O X board = Some (Fin (- z), board).
Proof.
  intros board. apply (minimax_zero_sum board 0 true X O). discriminate.
Defined.

(** ** [pickBestMove] *)

(** X6: when one cell is empty, [pickBestMove] returns it, for every
    difficulty and all draws: the tactical loops, the random choice and the
    search can only return that cell. *)
Theorem pickBestMove_only_cell (board : Board) (ai human : Player)
    (difficulty : Difficulty) (r1 r2 : Q) (i : nat) :
  Home.draw r2 ->
  empty_at board i ->
  (forall j, empty_at board j -> j = i) ->
  pickBestMove ai human difficulty r1 r2 board = Some (MoveAt i, board).
Proof.
  intros Hr2 Hi Honly.
  destruct (pickBestMove_result board ai human difficulty r1 r2)
    as (move & Hrun & _ & Hmove).
  rewrite Hrun. do 2 f_equal.
  destruct Hmove as [[-> _]|(j & -> & Hj)].
  - intros Hfull. now apply (Hfull i).
  - destruct (random_choice_In (available_of board) r2 Hr2) as (j & -> & Hj).
    + intros Hnil. apply available_of_nil in Hnil. now apply (Hnil i).
    + f_equal. now apply Honly, available_of_In.
  - f_equal. now apply Honly.
Qed.

Lemma pickBestMove_only_cell_witness :
  let board := [Some X; Some O; Some X;
                Some X; Some O; Some O;
                Some O; None; Some X] in
  pickBestMove X O relaxed (1 # 4) (3 # 4) board = Some (MoveAt 7, board).
Proof.
  intros board. apply (pickBestMove_only_cell board X O relaxed (1 # 4) (3 # 4) 7).
  - split; reflexivity || discriminate.
  - reflexivity.
  - intros j Hj. do 9 (destruct j as [|j]; [reflexivity || discriminate Hj|]).
    discriminate Hj.
Defined.

(** X7: a first draw that is not below the mistake probability makes every
    difficulty play the move of difficulty ["perfect"]. *)
Theorem pickBestMove_without_mistake (board : Board) (ai human : Player)
    (difficulty : Difficulty) (r1 r2 r1' r2' : Q) :
  (mistakes difficulty <= r1)%Q ->
  Home.draw r1' ->
  pickBestMove ai human difficulty r1 r2 board
  = pickBestMove ai human perfect r1' r2' board.
Proof.
  intros Hr1 [Hr1' _]. unfold pickBestMove. rewrite !pickBestMove_fuel_steps.
  assert (E : makes_mistake difficulty r1 = false)
    by (unfold makes_mistake; now apply negb_false_iff, Qle_bool_iff).
  now rewrite E, (makes_mistake_perfect r1').
Qed.

Lemma pickBestMove_without_mistake_witness :
  let board := [Some X; None; None; None; Some O; None; None; None; Some X] in
  pickBestMove O X relaxed (3 # 5) (1 # 2) board
  = pickBestMove O X perfect 0 0 board.
Proof.
  intros board.
  apply (pickBestMove_without_mistake board O X relaxed (3 # 5) (1 # 2) 0 0).
  - discriminate.
  - split; reflexivity || discriminate.
Defined.

(** The empty cells are listed in ascending order. *)
Lemma available_of_ascending (board : Board) :
  ForallOrdPairs lt (available_of board).
Proof.
  unfold available_of. generalize (length board) as n. generalize 0 as a.
  intros a n. revert a. induction n as [|n IH]; intros a; simpl; [constructor|].
  destruct (is_null (cell_at board a)); [|apply IH].
  constructor; [|apply IH].
  apply List.Forall_forall. intros x Hx. apply filter_In in Hx as [Hx _].
  apply in_seq in Hx. lia.
Qed.

(** The search loop keeps the first move whose score is greater than the
    scores of the moves before it and not smaller than those after it. *)
Lemma search_loop_argmax (fuel : nat) (ai human : Player) (board : Board)
    (f : nat -> Z) (moves : list nat) :
  empties board <= fuel ->
  (forall m, In m moves ->
     empty_at board m
     /\ minimax 0 false ai human (set_cell board m (Some ai))
        = Some (Fin (f m), set_cell board m (Some ai))) ->
  ForallOrdPairs lt moves ->
  forall bestScore chosenMove, exists chosen,
    search_loop fuel ai human moves bestScore chosenMove board
    = Some (chosen, board)
    /\ ((chosen = chosenMove
         /\ forall m, In m moves -> num_ltb bestScore (Fin (f m)) = false)
        \/ (In chosen moves
            /\ num_ltb bestScore (Fin (f chosen)) = true
            /\ forall m, In m moves ->
                 (f m <= f chosen)%Z /\ (m < chosen -> (f m < f chosen)%Z))).
Proof.
  intros Hfuel Hmoves Hasc.
  induction Hasc as [|move rest Hlt _ IH]; intros bestScore chosenMove.
  - exists chosenMove. split; [reflexivity|]. left. split; [reflexivity|easy].
  - destruct (Hmoves move) as [Hmove Hscore]; [now left|].
    assert (Hrest : forall m, In m rest ->
              empty_at board m
              /\ minimax 0 false ai human (set_cell board m (Some ai))
                 = Some (Fin (f m), set_cell board m (Some ai)))
      by (intros m Hm; apply Hmoves; now right).
    rewrite List.Forall_forall in Hlt.
    rewrite <- (minimax_fuel_minimax _ _ _ _ _ fuel) in Hscore
      by (pose proof (empties_set board move ai Hmove); lia).
    simpl. unfold bind, write. simpl. rewrite Hscore. simpl.
    rewrite set_cell_undo by assumption.
    destruct (num_ltb bestScore (Fin (f move))) eqn:Hcmp.
    + destruct (IH Hrest (Fin (f move)) move) as (chosen & Hrun & Hchosen).
      exists chosen. split; [assumption|]. right.
      destruct Hchosen as [[-> Hall]|(Hin & Hgt & Hall)].
      * split; [now left|]. split; [assumption|].
        intros m [<-|Hm]; [lia|]. specialize (Hall m Hm). simpl in Hall.
        apply Z.ltb_ge in Hall. specialize (Hlt m Hm). lia.
      * simpl in Hgt. apply Z.ltb_lt in Hgt.
        split; [now right|]. split.
        { destruct bestScore; simpl in *; try reflexivity; try discriminate.
          apply Z.ltb_lt in Hcmp. apply Z.ltb_lt. lia. }
        intros m [<-|Hm]; [lia|]. now apply Hall.
    + destruct (IH Hrest bestScore chosenMove) as (chosen & Hrun & Hchosen).
      exists chosen. split; [assumption|].
      destruct Hchosen as [[-> Hall]|(Hin & Hgt & Hall)].
      * left. split; [reflexivity|]. intros m [<-|Hm]; [assumption|now apply Hall].
      * right. split; [now right|]. split; [assumption|].
        intros m [<-|Hm]; [|now apply Hall].
        assert (f move < f chosen)%Z; [|lia].
        destruct bestScore; simpl in *; try discriminate.
        apply Z.ltb_lt in Hgt. apply Z.ltb_ge in Hcmp. lia.
Qed.

(** X8: when there is no immediate win, no immediate block and no mistake,
    [pickBestMove] returns the empty cell whose position, searched at depth
    0 with the human to move, has the greatest score; among cells of equal
    score it returns the one of smallest index. *)
Theorem pickBestMove_search_best (board : Board) (ai human : Player)
    (difficulty : Difficulty) (r1 r2 : Q) :
  ~ full board ->
  (forall j, ~ reports_win board j ai) ->
  (forall j, ~ reports_win board j human) ->
  (mistakes difficulty <= r1)%Q ->
  exists chosen best,
    pickBestMove ai human difficulty r1 r2 board = Some (MoveAt chosen, board)
    /\ empty_at board chosen
    /\ minimax 0 false ai human (set_cell board chosen (Some ai))
       = Some (Fin best, set_cell board chosen (Some ai))
    /\ forall m z,
         empty_at board m ->
         minimax 0 false ai human (set_cell board m (Some ai))
         = Some (Fin z, set_cell board m (Some ai)) ->
         (z <= best)%Z /\ (m < chosen -> (z < best)%Z).
Proof.
  intros Hnf Hwin Hblock Hr1.
  set (f := fun m => match minimax 0 false ai human
                             (set_cell board m (Some ai)) with
                     | Some (Fin z, _) => z
                     | _ => 0%Z
                     end).
  assert (Hf : forall m,
             minimax 0 false ai human (set_cell board m (Some ai))
             = Some (Fin (f m), set_cell board m (Some ai))).
  { intros m. subst f. simpl.
    destruct (minimax_total (set_cell board m (Some ai)) 0 false ai human)
      as [z Hz]. now rewrite Hz. }
  unfold pickBestMove. rewrite pickBestMove_fuel_steps.
  destruct (available_of board) as [|first rest] eqn:E.
  { exfalso. now apply Hnf, available_of_nil. }
  rewrite <- E.
  apply first_win_None in Hwin, Hblock. rewrite Hwin, Hblock.
  assert (Em : makes_mistake difficulty r1 = false)
    by (unfold makes_mistake; now apply negb_false_iff, Qle_bool_iff).
  rewrite Em.
  destruct (search_loop_argmax (S (length board)) ai human board f
              (available_of board)) with (bestScore := NegInf)
    (chosenMove := first) as (chosen & Hrun & Hchosen).
  { pose proof (empties_le_length board). lia. }
  { intros m Hm. split; [now apply available_of_In|apply Hf]. }
  { apply available_of_ascending. }
  rewrite Hrun. exists chosen, (f chosen).
  destruct Hchosen as [[_ Hall]|(Hin & _ & Hall)].
  { exfalso. specialize (Hall first). rewrite E in Hall.
    now specialize (Hall (or_introl eq_refl)). }
  split; [reflexivity|]. split; [now apply available_of_In|].
  split; [apply Hf|]. intros m z Hm Hz.
  rewrite Hf in Hz. injection Hz as <-. now apply Hall, available_of_In.
Qed.

Lemma pickBestMove_search_best_witness :
  let board := [Some X; None; None; None; Some O; None; None; None; Some X] in
  exists chosen best,
    pickBestMove O X perfect 0 0 board = Some (MoveAt chosen, board)
    /\ empty_at board chosen
    /\ minimax 0 false O X (set_cell board chosen (Some O))
       = Some (Fin best, set_cell board chosen (Some O))
    /\ forall m z,
         empty_at board m ->
         minimax 0 false O X (set_cell board m (Some O))
         = Some (Fin z, set_cell board m (Some O)) ->
         (z <= best)%Z /\ (m < chosen -> (z < best)%Z).
Proof.
  intros board. apply (pickBestMove_search_best board O X perfect 0 0).
  - intros H. apply every_Boolean_full in H. discriminate.
  - apply first_win_None. reflexivity.
  - apply first_win_None. reflexivity.
  - discriminate.
Defined.

Lemma available_of_length (board : Board) :
  length (available_of board) <= length board.
Proof.
  unfold available_of.
  etransitivity; [apply List.filter_length_le|]. now rewrite length_seq.
Qed.

(** Among at most sixteen moves, each is the random choice of a draw
    [j / 16]. *)
Lemma random_choice_sixteenths (available : list nat) (k move : nat) :
  length available <= 16 ->
  available !! k = Some move ->
  exists j, j < 16 /\ random_choice available (Z.of_nat j # 16) = MoveAt move.
Proof.
  intros Hlen Hk. pose proof (lookup_lt_Some _ _ _ Hk) as Hlt.
  set (n := length available) in *.
  set (j := (16 * k + n - 1) / n).
  assert (Hn : n <> 0) by lia.
  pose proof (Nat.div_mod_eq (16 * k + n - 1) n) as Hdiv.
  pose proof (Nat.mod_upper_bound (16 * k + n - 1) n Hn) as Hmod.
  fold j in Hdiv.
  assert (Hlow : 16 * k <= j * n) by nia.
  assert (Hhigh : j * n < 16 * k + 16) by nia.
  assert (Hj : j < 16) by nia.
  exists j. split; [assumption|].
  unfold random_choice. cbv zeta. fold n.
  assert (Hfloor : Qfloor ((Z.of_nat j # 16) * inject_Z (Z.of_nat n))
                   = Z.of_nat k).
  { unfold Qfloor, Qmult, inject_Z. cbn [Qnum Qden].
    change (Z.pos (16 * 1)) with 16%Z. symmetry.
    apply (Z.div_unique _ _ _ (Z.of_nat (j * n - 16 * k))); lia. }
  rewrite !Hfloor.
  destruct (Z.ltb_spec (Z.of_nat k) 0); [lia|].
  now rewrite Nat2Z.id, Hk.
Qed.

(** X9: on a 9-cell board with no immediate win and no immediate block,
    when the first draw is below the mistake probability of the
    difficulty, every empty cell is the move returned for some second draw
    [j / 16] with [j < 16].  Such a draw is a binary64 number of [[0, 1)]
    and so is its product with a length up to 9, so the cell is the one
    the source reads. *)
Theorem pickBestMove_mistake_any_cell (board : Board) (ai human : Player)
    (difficulty : Difficulty) (r1 : Q) (move : nat) :
  length board = 9 ->
  (forall j, ~ reports_win board j ai) ->
  (forall j, ~ reports_win board j human) ->
  (r1 < mistakes difficulty)%Q ->
  empty_at board move ->
  exists j,
    j < 16
    /\ Home.draw (Z.of_nat j # 16)
    /\ pickBestMove ai human difficulty r1 (Z.of_nat j # 16) board
       = Some (MoveAt move, board).
Proof.
  intros Hlen Hwin Hblock Hr1 Hmove.
  apply available_of_In, list_elem_of_In, list_elem_of_lookup_1 in Hmove
    as [k Hk].
  assert (Hfew : length (available_of board) <= 16)
    by (pose proof (available_of_length board); lia).
  destruct (random_choice_sixteenths _ _ _ Hfew Hk) as (j & Hj & Hchoice).
  exists j. split; [assumption|]. split.
  { split; [unfold Qle|unfold Qlt]; simpl; lia. }
  unfold pickBestMove. rewrite pickBestMove_fuel_steps.
  apply first_win_None in Hwin, Hblock. rewrite Hwin, Hblock.
  assert (Em : makes_mistake difficulty r1 = true).
  { unfold makes_mistake. apply negb_true_iff, not_true_is_false.
    intros H. apply Qle_bool_iff in H. now apply Qlt_not_le in Hr1. }
  rewrite Em, Hchoice.
  destruct (available_of board); [discriminate Hk|reflexivity].
Qed.

(** At difficulty ["balanced"] with a first draw of [1 / 4], cell 6 of a
    board with two marks. *)
Lemma pickBestMove_mistake_any_cell_witness :
  let board := [Some X; None; None; None; Some O; None; None; None; None] in
  exists j,
    j < 16
    /\ Home.draw (Z.of_nat j # 16)
    /\ pickBestMove O X balanced (1 # 4) (Z.of_nat j # 16) board
       = Some (MoveAt 6, board).
Proof.
  intros board. apply (pickBestMove_mistake_any_cell board O X balanced (1 # 4) 6).
  - reflexivity.
  - apply first_win_None. reflexivity.
  - apply first_win_None. reflexivity.
  - reflexivity.
  - reflexivity.
Defined.

(** ** The page: counting marks *)

Lemma count_marks_set_same (board : Board) (i : nat) (p : Player) :
  empty_at board i ->
  count_marks p (set_cell board i (Some p)) = S (count_marks p board).
Proof.
  unfold empty_at, set_cell, count_marks. revert i.
  induction board as [|c board IH]; intros [|i] H; simpl in *; try discriminate.
  - injection H as ->. simpl. now rewrite player_eqb_refl.
  - destruct (cell_is c p); simpl; now rewrite (IH i H).
Qed.

Lemma count_marks_set_other (board : Board) (i : nat) (p q : Player) :
  empty_at board i -> q <> p ->
  count_marks q (set_cell board i (Some p)) = count_marks q board.
Proof.
  unfold empty_at, set_cell, count_marks. intros H Hqp. revert i H.
  induction board as [|c board IH]; intros [|i] H; simpl in *; try discriminate.
  - injection H as ->. simpl.
    assert (E : player_eqb p q = false) by (apply player_eqb_neq; congruence).
    now rewrite E.
  - destruct (cell_is c q); simpl; now rewrite (IH i H).
Qed.

Lemma nextPlayer_neq (p : Player) : nextPlayer p <> p.
Proof. now destruct p. Qed.

Lemma nextPlayer_involutive (p : Player) : nextPlayer (nextPlayer p) = p.
Proof. now destruct p. Qed.

Lemma player_cases (p q : Player) : q = p \/ q = nextPlayer p.
Proof. destruct p, q; simpl; auto. Qed.

(** ** The page: what [makeMove] does to a round that goes on *)

(** [Home.makeMove] is [Page.makeMove] on the fields of a round, in the
    states where no line is highlighted while the round goes on. *)
Lemma Page_makeMove_round (s : Page.State) (index : nat) (player : Player) :
  (Page.winner s = None -> Page.highlightLine s = None) ->
  Page.round (Page.makeMove index player s)
  = Home.makeMove (Page.round s) index player.
Proof.
  intros Hline. unfold Page.makeMove, Home.makeMove, Page.round. simpl.
  destruct (Page.winner s) eqn:Hw; [simpl; now rewrite Hw|].
  destruct (cell_at (Page.board s) index); [simpl; now rewrite Hw|].
  destruct (evaluateWinner _) as [[p|] l]; [reflexivity|].
  destruct (every_Boolean _); [reflexivity|].
  simpl. now rewrite Hw, Hline.
Qed.

Lemma Page_makeMove_settings (s : Page.State) (index : nat) (player : Player) :
  let s' := Page.makeMove index player s in
  Page.mode s' = Page.mode s
  /\ Page.difficulty s' = Page.difficulty s
  /\ Page.humanSymbol s' = Page.humanSymbol s
  /\ Page.startingPlayer s' = Page.startingPlayer s
  /\ Page.isBotThinking s' = Page.isBotThinking s.
Proof.
  unfold Page.makeMove.
  destruct (Page.winner s); [easy|].
  destruct (cell_at (Page.board s) index); [easy|].
  destruct (evaluateWinner _) as [[p|] l]; [easy|].
  now destruct (every_Boolean _).
Qed.

(** The three ways a move in an empty cell of a round that goes on ends. *)
Lemma Page_makeMove_cases (s : Page.State) (index : nat) (player : Player) :
  Page.winner s = None ->
  empty_at (Page.board s) index ->
  let next := set_cell (Page.board s) index (Some player) in
  let s' := Page.makeMove index player s in
  Page.board s' = next
  /\ ((exists p t,
         evaluateWinner next = mkEvaluation (Some p) (Some t)
         /\ In t WINNING_TRIOS /\ holds next t p
         /\ Page.winner s' = Some (Won p)
         /\ Page.highlightLine s' = Some t
         /\ Page.currentPlayer s' = Page.currentPlayer s
         /\ Page.scores s' = Page.increment (Page.scores s) (Won p))
      \/ (lineless next /\ full next
          /\ Page.winner s' = Some Tie
          /\ Page.highlightLine s' = None
          /\ Page.currentPlayer s' = Page.currentPlayer s
          /\ Page.scores s' = Page.increment (Page.scores s) Tie)
      \/ (lineless next /\ ~ full next
          /\ Page.winner s' = None
          /\ Page.highlightLine s' = Page.highlightLine s
          /\ Page.currentPlayer s' = nextPlayer player
          /\ Page.scores s' = Page.scores s)).
Proof.
  intros Hw He next s'. destruct (empty_at_cell _ _ He) as [Hcell _].
  subst s'. unfold Page.makeMove. rewrite Hw, Hcell. fold next.
  destruct (winner (evaluateWinner next)) as [p|] eqn:Hwin.
  - apply scan_trios_winner in Hwin as (t & Hin & Hh & Heq).
    fold (evaluateWinner next) in Heq. rewrite Heq. simpl.
    split; [reflexivity|]. left. exists p, t. now destruct p.
  - apply winner_none_lineless in Hwin.
    rewrite (evaluateWinner_lineless next Hwin).
    destruct (every_Boolean next) eqn:Hf; simpl.
    + split; [reflexivity|]. right; left.
      apply every_Boolean_full in Hf. easy.
    + split; [reflexivity|]. right; right. repeat split; try assumption.
      intros H. apply every_Boolean_full in H. congruence.
Qed.

(** ** The page: the invariant of the reachable states *)

Lemma page_invariant_fresh (s : Page.State) :
  Page.board s = emptyBoard ->
  Page.winner s = None ->
  Page.highlightLine s = None ->
  Page.currentPlayer s = Page.startingPlayer s ->
  Page.isBotThinking s = false ->
  page_invariant s.
Proof.
  intros Hb Hw Hl Hc Ht.
  unfold page_invariant, turns_alternate, outcome_consistent.
  rewrite Hb, Hw, Hl, Hc, Ht. repeat split.
  - left. split; [|reflexivity]. now destruct (Page.startingPlayer s).
  - apply winner_none_lineless. reflexivity.
  - intros H. apply every_Boolean_full in H. discriminate.
  - discriminate.
Qed.

Lemma page_invariant_makeMove (s : Page.State) (index : nat) :
  length (Page.board s) = 9 ->
  turns_alternate s ->
  outcome_consistent s ->
  Page.winner s = None ->
  empty_at (Page.board s) index ->
  let s' := Page.makeMove index (Page.currentPlayer s) s in
  length (Page.board s') = 9 /\ turns_alternate s' /\ outcome_consistent s'.
Proof.
  intros Hlen Hturns Hout Hw He s'.
  destruct (Page_makeMove_settings s index (Page.currentPlayer s))
    as (_ & _ & _ & Hstart & _). fold s' in Hstart.
  destruct (Page_makeMove_cases s index (Page.currentPlayer s) Hw He)
    as [Hboard Hcases]. fold s' in Hboard, Hcases.
  unfold turns_alternate, outcome_consistent in *.
  rewrite Hw in Hturns, Hout. destruct Hout as (Hline & _ & Hnone).
  rewrite Hboard, Hstart.
  split; [unfold set_cell; now rewrite length_insert|].
  set (starter := Page.startingPlayer s) in *.
  set (player := Page.currentPlayer s) in *.
  (* the counts after the move *)
  assert (Hcount :
    (count_marks starter (set_cell (Page.board s) index (Some player))
     = S (count_marks (nextPlayer starter)
            (set_cell (Page.board s) index (Some player)))
     /\ player = starter)
    \/ (count_marks starter (set_cell (Page.board s) index (Some player))
        = count_marks (nextPlayer starter)
            (set_cell (Page.board s) index (Some player))
        /\ player = nextPlayer starter)).
  { destruct Hturns as [[Hab Hp]|[Hab Hp]]; rewrite Hp.
    - left. split; [|reflexivity].
      rewrite count_marks_set_same, count_marks_set_other;
        auto using nextPlayer_neq.
    - right. split; [|reflexivity].
      rewrite count_marks_set_same, count_marks_set_other; auto.
      intros H. symmetry in H. now apply nextPlayer_neq in H. }
  destruct Hcases as [(p & t & Heval & Hin & Hh & Hwin & Hhl & Hcur & _)
                     |[(Hl & Hf & Hwin & Hhl & Hcur & _)
                      |(Hl & Hf & Hwin & Hhl & Hcur & _)]];
    rewrite Hwin, Hcur; fold player.
  - split; [assumption|].
    destruct (new_line_through_move (Page.board s) index player p t He
                (Hline t Hin) Hh) as [-> _].
    split; [reflexivity|]. exists t. now rewrite Hhl.
  - split; [assumption|]. now rewrite Hhl.
  - split.
    + destruct Hcount as [[Hc Hp]|[Hc Hp]]; rewrite Hp in Hc |- *.
      * now right.
      * left. split; [assumption|apply nextPlayer_involutive].
    + rewrite Hhl. auto.
Qed.

(** For draws of [[0, 1)], a move of [pickBestMove] is an empty cell. *)
Lemma pickBestMove_move_empty (board board' : Board) (ai human : Player)
    (difficulty : Difficulty) (r1 r2 : Q) (move : nat) :
  Home.draw r2 ->
  pickBestMove ai human difficulty r1 r2 board = Some (MoveAt move, board') ->
  empty_at board move.
Proof.
  intros Hr2 Hrun.
  destruct (pickBestMove_result board ai human difficulty r1 r2)
    as (m & Hm & Hfull & Hmove).
  rewrite Hrun in Hm. injection Hm as <- _.
  destruct Hmove as [[Hchoice _]|(i & [= <-] & Hi)]; [| |assumption].
  - intros Hf. now apply Hfull in Hf.
  - destruct (random_choice_In (available_of board) r2 Hr2) as (i & Hi & Hin).
    + intros Hnil. apply available_of_nil, Hfull in Hnil. discriminate.
    + rewrite Hi in Hchoice. injection Hchoice as ->. now apply available_of_In.
Qed.

Lemma botTurn_spec (s : Page.State) :
  Page.botTurn s = true
  <-> Page.mode s = Page.bot /\ Page.winner s = None
      /\ Page.currentPlayer s = Page.botSymbol s.
Proof.
  unfold Page.botTurn. destruct (Page.mode s), (Page.winner s);
    rewrite ?player_eqb_eq; intuition congruence.
Qed.

Lemma botSymbol_not_human (s : Page.State) :
  Page.botSymbol s <> Page.humanSymbol s.
Proof. unfold Page.botSymbol. now destruct (Page.humanSymbol s). Qed.

(** A click that plays happens while the bot is not thinking. *)
Lemma page_invariant_click (s : Page.State) (index : nat) :
  index < length (Page.board s) ->
  page_invariant s -> page_invariant (Page.handleSquareClick index s).
Proof.
  intros Hindex Hinv. unfold Page.handleSquareClick.
  destruct (Page.winner s) eqn:Hw; [assumption|].
  destruct (cell_at (Page.board s) index) eqn:Hcell; [assumption|].
  assert (He : empty_at (Page.board s) index) by now apply cell_at_empty.
  assert (Hplay : (Page.isBotThinking s = true -> False) ->
                  page_invariant (Page.makeMove index (Page.currentPlayer s) s)).
  { intros Hquiet. destruct Hinv as (Hlen & Hturns & Hout & _).
    destruct (page_invariant_makeMove s index Hlen Hturns Hout Hw He)
      as (Hlen' & Hturns' & Hout').
    repeat split; try assumption.
    destruct (Page_makeMove_settings s index (Page.currentPlayer s))
      as (_ & _ & _ & _ & ->). intros H. now apply Hquiet in H. }
  pose proof Hinv as (_ & _ & _ & Hthink).
  destruct (Page.mode s) eqn:Hmode.
  - destruct (player_eqb _ _) eqn:Hturn; [|assumption].
    apply Hplay. intros H. apply Hthink, botTurn_spec in H as (_ & _ & Hbot).
    apply player_eqb_eq in Hturn. rewrite Hturn in Hbot.
    symmetry in Hbot. now apply botSymbol_not_human in Hbot.
  - apply Hplay. intros H. apply Hthink, botTurn_spec in H as (Hm & _).
    congruence.
Qed.

Lemma page_invariant_botMoves (s s' : Page.State) (r1 r2 : Q) :
  Home.draw r2 ->
  Page.botMoves r1 r2 s = Some s' ->
  page_invariant s -> page_invariant s'.
Proof.
  intros Hr2 Hbot Hinv. unfold Page.botMoves in Hbot.
  destruct (Page.botTurn s) eqn:Hturn; [|now injection Hbot as <-].
  apply botTurn_spec in Hturn as (Hmode & Hw & Hcur).
  destruct (pickBestMove _ _ _ _ _ _) as [[[| |move] b]|] eqn:Hpick;
    try discriminate; injection Hbot as <-.
  - destruct Hinv as (Hlen & Hturns & Hout & _).
    repeat split; try assumption. discriminate.
  - apply pickBestMove_move_empty in Hpick; [|assumption].
    destruct Hinv as (Hlen & Hturns & Hout & _). rewrite <- Hcur.
    destruct (page_invariant_makeMove s move Hlen Hturns Hout Hw Hpick)
      as (Hlen' & Hturns' & Hout').
    repeat split; try assumption. discriminate.
Qed.

Lemma page_invariant_step (s s' : Page.State) :
  Page.step s s' -> page_invariant s -> page_invariant s'.
Proof.
  intros Hstep Hinv.
  destruct Hstep as [s index Hindex|s nextMode|s symbol _|s level _|s symbol _
                    |s|s|s|s|s r1 r2 s' _ Hr2 Hbot];
    try (apply page_invariant_fresh; reflexivity).
  - now apply page_invariant_click.
  - exact Hinv.
  - unfold Page.botThinks. destruct (Page.botTurn s) eqn:Hturn; [|assumption].
    destruct Hinv as (Hlen & Hturns & Hout & _).
    repeat split; try assumption. intros _. exact Hturn.
  - eapply page_invariant_botMoves; eauto.
Qed.

Lemma page_invariant_reachable (s : Page.State) :
  Page.reachable s -> page_invariant s.
Proof.
  unfold Page.reachable. intros Hreach.
  apply (rtc_ind_r (R := Page.step) page_invariant Page.initial);
    [|intros s1 s2 _ Hstep IH; now apply (page_invariant_step s1)|exact Hreach].
  now apply page_invariant_fresh.
Qed.

(** X10: in every state the page reaches, the board has nine cells and the
    recorded outcome is the one the board shows: no winner while no line
    is complete and a cell is empty; ["tie"] on a full board with no line;
    a mark as winner when the evaluator reports that mark on the board, with
    the highlighted line the one the evaluator returns, and that mark is
    the one of the player who moved last. *)
Theorem page_outcome_consistent (s : Page.State) :
  Page.reachable s ->
  length (Page.board s) = 9 /\ outcome_consistent s.
Proof.
  intros Hreach. now destruct (page_invariant_reachable s Hreach) as (? & _ & ? & _).
Qed.

(** A round won in mode ["friend"]: [X] plays 0, 1 and 2, [O] plays 3
    and 4; the top row is highlighted and [X] has one win. *)
Lemma page_outcome_consistent_witness :
  let s := Page.mkState Page.friend balanced X X
             [Some X; Some X; Some X;
              Some O; Some O; None;
              None; None; None]
             X (Some (Won X)) (Some (0, 1, 2)) false (Page.mkScores 1 0 0) in
  length (Page.board s) = 9 /\ outcome_consistent s.
Proof.
  intros s. apply (page_outcome_consistent s). unfold Page.reachable.
  eapply rtc_l; [apply (Page.step_mode _ Page.friend)|]. normalize_state.
  eapply rtc_l; [apply (Page.step_square _ 0); simpl; lia|]. normalize_state.
  eapply rtc_l; [apply (Page.step_square _ 3); simpl; lia|]. normalize_state.
  eapply rtc_l; [apply (Page.step_square _ 1); simpl; lia|]. normalize_state.
  eapply rtc_l; [apply (Page.step_square _ 4); simpl; lia|]. normalize_state.
  eapply rtc_l; [apply (Page.step_square _ 2); simpl; lia|]. normalize_state.
  apply rtc_refl.
Defined.

(** X11: in every state the page reaches, the marks are those of alternate
    play from [startingPlayer]: the starter has as many marks as the other
    player or one more, and while the round goes on the player to move is
    the starter in the first case and the other player in the second. *)
Theorem page_turns_alternate (s : Page.State) :
  Page.reachable s ->
  turns_alternate s
  /\ count_marks (nextPlayer (Page.startingPlayer s)) (Page.board s)
     <= count_marks (Page.startingPlayer s) (Page.board s)
     <= S (count_marks (nextPlayer (Page.startingPlayer s)) (Page.board s)).
Proof.
  intros Hreach.
  destruct (page_invariant_reachable s Hreach) as (_ & Hturns & _).
  split; [assumption|]. unfold turns_alternate in Hturns.
  destruct (Page.winner s); destruct Hturns as [[H _]|[H _]]; lia.
Qed.

(** A round against the bot after three moves: the human, [X], takes the
    centre; the bot makes a mistake (first draw [1 / 10]) and the second
    draw [3 / 4] picks cell 7 among the eight empty cells; the human takes
    cell 0.  [X] has two marks, [O] one, and [O] is to move. *)
Lemma page_turns_alternate_witness :
  let s := Page.mkState Page.bot balanced X X
             [Some X; None; None;
              None; Some X; None;
              None; Some O; None]
             O None None false (Page.mkScores 0 0 0) in
  turns_alternate s
  /\ count_marks (nextPlayer (Page.startingPlayer s)) (Page.board s)
     <= count_marks (Page.startingPlayer s) (Page.board s)
     <= S (count_marks (nextPlayer (Page.startingPlayer s)) (Page.board s)).
Proof.
  intros s. apply (page_turns_alternate s). unfold Page.reachable.
  eapply rtc_l; [apply (Page.step_square _ 4); simpl; lia|]. normalize_state.
  eapply rtc_l; [apply Page.step_bot_thinks|]. normalize_state.
  eapply rtc_l;
    [apply Page.step_bot_moves with (r1 := 1 # 10) (r2 := 3 # 4);
     [split; reflexivity || discriminate
     |split; reflexivity || discriminate
     |vm_compute; reflexivity]|].
  eapply rtc_l; [apply (Page.step_square _ 0); simpl; lia|]. normalize_state.
  apply rtc_refl.
Defined.

(** X12: in every state the page reaches, [isBotThinking] is set only in
    mode ["bot"], in a round that is not over, when the player to move is
    the bot and not the human. *)
Theorem page_thinking_on_bot_turn (s : Page.State) :
  Page.reachable s ->
  Page.isBotThinking s = true ->
  Page.mode s = Page.bot
  /\ Page.winner s = None
  /\ Page.currentPlayer s = Page.botSymbol s
  /\ Page.currentPlayer s <> Page.humanSymbol s.
Proof.
  intros Hreach Hthink.
  destruct (page_invariant_reachable s Hreach) as (_ & _ & _ & Hbot).
  apply Hbot, botTurn_spec in Hthink as (Hm & Hw & Hc).
  repeat split; try assumption. rewrite Hc. apply botSymbol_not_human.
Qed.

Lemma page_thinking_on_bot_turn_witness :
  let s := Page.botThinks (Page.handleSquareClick 4 Page.initial) in
  Page.mode s = Page.bot
  /\ Page.winner s = None
  /\ Page.currentPlayer s = Page.botSymbol s
  /\ Page.currentPlayer s <> Page.humanSymbol s.
Proof.
  intros s. apply (page_thinking_on_bot_turn s).
  - eapply rtc_l; [apply (Page.step_square Page.initial 4); simpl; lia|].
    eapply rtc_l; [apply Page.step_bot_thinks|]. apply rtc_refl.
  - reflexivity.
Defined.

(** X13: a click on a square either changes nothing, or it places the mark
    of the player to move in that square, which was empty, in a round that
    was not over, and in mode ["bot"] on the human's turn; the settings and
    the other squares are as before. *)
Theorem handleSquareClick_effect (s : Page.State) (index : nat) :
  index < length (Page.board s) ->
  let s' := Page.handleSquareClick index s in
  s' = s
  \/ (Page.winner s = None
      /\ empty_at (Page.board s) index
      /\ (Page.mode s = Page.bot -> Page.currentPlayer s = Page.humanSymbol s)
      /\ Page.board s' = set_cell (Page.board s) index (Some (Page.currentPlayer s))
      /\ Page.mode s' = Page.mode s
      /\ Page.difficulty s' = Page.difficulty s
      /\ Page.humanSymbol s' = Page.humanSymbol s
      /\ Page.startingPlayer s' = Page.startingPlayer s).
Proof.
  intros Hindex s'. subst s'. unfold Page.handleSquareClick.
  destruct (Page.winner s) eqn:Hw; [now left|].
  destruct (cell_at (Page.board s) index) eqn:Hcell; [now left|].
  assert (He : empty_at (Page.board s) index) by now apply cell_at_empty.
  assert (Hplay : (Page.mode s = Page.bot ->
                   Page.currentPlayer s = Page.humanSymbol s) ->
    let s' := Page.makeMove index (Page.currentPlayer s) s in
    empty_at (Page.board s) index
    /\ (Page.mode s = Page.bot -> Page.currentPlayer s = Page.humanSymbol s)
    /\ Page.board s' = set_cell (Page.board s) index (Some (Page.currentPlayer s))
    /\ Page.mode s' = Page.mode s
    /\ Page.difficulty s' = Page.difficulty s
    /\ Page.humanSymbol s' = Page.humanSymbol s
    /\ Page.startingPlayer s' = Page.startingPlayer s).
  { intros Hturn s'.
    destruct (Page_makeMove_settings s index (Page.currentPlayer s))
      as (Hm & Hd & Hh & Hs & _).
    destruct (Page_makeMove_cases s index (Page.currentPlayer s) Hw He)
      as [Hboard _].
    repeat split; assumption. }
  destruct (Page.mode s) eqn:Hmode.
  - destruct (player_eqb _ _) eqn:Hturn; [|now left].
    right. split; [reflexivity|]. apply Hplay. intros _. now apply player_eqb_eq.
  - right. split; [reflexivity|]. apply Hplay. discriminate.
Qed.

Lemma handleSquareClick_effect_witness :
  let s' := Page.handleSquareClick 4 Page.initial in
  s' = Page.initial
  \/ (Page.winner Page.initial = None
      /\ empty_at (Page.board Page.initial) 4
      /\ (Page.mode Page.initial = Page.bot ->
          Page.currentPlayer Page.initial = Page.humanSymbol Page.initial)
      /\ Page.board s' = set_cell (Page.board Page.initial) 4
                           (Some (Page.currentPlayer Page.initial))
      /\ Page.mode s' = Page.mode Page.initial
      /\ Page.difficulty s' = Page.difficulty Page.initial
      /\ Page.humanSymbol s' = Page.humanSymbol Page.initial
      /\ Page.startingPlayer s' = Page.startingPlayer Page.initial).
Proof.
  apply (handleSquareClick_effect Page.initial 4). simpl. lia.
Defined.

(** X14: for a second draw of [[0, 1)] the bot's callback always gives a
    state.  Either it plays nothing, and the board, the winner, the player
    to move and the tally are as before, or the mode is ["bot"], the round
    was not over, it was the bot's turn, and the bot's mark is placed in a
    cell that was empty. *)
Theorem botMoves_effect (s : Page.State) (r1 r2 : Q) :
  Home.draw r2 ->
  exists s',
    Page.botMoves r1 r2 s = Some s'
    /\ ((Page.board s' = Page.board s
         /\ Page.winner s' = Page.winner s
         /\ Page.currentPlayer s' = Page.currentPlayer s
         /\ Page.scores s' = Page.scores s)
        \/ (Page.mode s = Page.bot
            /\ Page.winner s = None
            /\ Page.currentPlayer s = Page.botSymbol s
            /\ exists move,
                 empty_at (Page.board s) move
                 /\ Page.board s'
                    = set_cell (Page.board s) move (Some (Page.botSymbol s)))).
Proof.
  intros Hr2. unfold Page.botMoves.
  destruct (Page.botTurn s) eqn:Hturn; [|exists s; split; [reflexivity|now left]].
  apply botTurn_spec in Hturn as (Hmode & Hw & Hcur).
  destruct (pickBestMove_result (Page.board s) (Page.botSymbol s)
              (Page.humanSymbol s) (Page.difficulty s) r1 r2)
    as (m & Hrun & Hfull & Hmove).
  destruct (pickBestMove _ _ _ _ _ _) as [[[| |move] b]|] eqn:Hpick;
    try discriminate.
  - eexists. split; [reflexivity|]. now left.
  - exfalso. injection Hrun as <- _.
    destruct (every_Boolean (Page.board s)) eqn:Hf.
    + apply every_Boolean_full, Hfull in Hf. discriminate.
    + destruct Hmove as [[Hchoice _]|(i & [=] & _)].
      * intros H. apply every_Boolean_full in H. congruence.
      * destruct (random_choice_In (available_of (Page.board s)) r2 Hr2)
          as (i & Hi & _); [|congruence].
        intros Hnil. apply available_of_nil, every_Boolean_full in Hnil.
        congruence.
  - eexists. split; [reflexivity|]. right.
    apply pickBestMove_move_empty in Hpick; [|assumption].
    repeat split; try assumption. exists move. split; [assumption|].
    now destruct (Page_makeMove_cases s move (Page.botSymbol s) Hw Hpick).
Qed.

Lemma botMoves_effect_witness :
  let s := Page.handleSquareClick 4 Page.initial in
  exists s',
    Page.botMoves (1 # 2) (1 # 2) s = Some s'
    /\ ((Page.board s' = Page.board s
         /\ Page.winner s' = Page.winner s
         /\ Page.currentPlayer s' = Page.currentPlayer s
         /\ Page.scores s' = Page.scores s)
        \/ (Page.mode s = Page.bot
            /\ Page.winner s = None
            /\ Page.currentPlayer s = Page.botSymbol s
            /\ exists move,
                 empty_at (Page.board s) move
                 /\ Page.board s'
                    = set_cell (Page.board s) move (Some (Page.botSymbol s)))).
Proof.
  intros s. apply (botMoves_effect s (1 # 2) (1 # 2)).
  split; reflexivity || discriminate.
Defined.

(** ** The page: the tally and the rounds *)

Lemma Page_makeMove_scores (s : Page.State) (index : nat) (player : Player) :
  let s' := Page.makeMove index player s in
  (Page.winner s' = Page.winner s /\ Page.scores s' = Page.scores s)
  \/ (Page.winner s = None
      /\ exists w, Page.winner s' = Some w
           /\ Page.scores s' = Page.increment (Page.scores s) w).
Proof.
  unfold Page.makeMove.
  destruct (Page.winner s) eqn:Hw; [now left|].
  destruct (cell_at (Page.board s) index); [now left|].
  destruct (evaluateWinner _) as [[p|] l].
  - right. split; [reflexivity|]. exists (Won p). split; reflexivity.
  - destruct (every_Boolean _).
    + right. split; [reflexivity|]. exists Tie. split; reflexivity.
    + left. simpl. now rewrite Hw.
Qed.

(** X15: the tally changes only when a round ends, and then one is added
    to the entry of the outcome, or when the scores are reset to zero;
    no other button and no move in a round that goes on touches it. *)
Theorem page_tally_changes (s s' : Page.State) :
  Page.step s s' ->
  Page.scores s' = Page.scores s
  \/ Page.scores s' = Page.mkScores 0 0 0
  \/ (Page.winner s = None
      /\ exists w,
           Page.winner s' = Some w
           /\ Page.scores s' = Page.increment (Page.scores s) w
           /\ Page.tally (Page.scores s') w = S (Page.tally (Page.scores s) w)).
Proof.
  assert (Hmove : forall s index player,
    let s' := Page.makeMove index player s in
    Page.scores s' = Page.scores s
    \/ (Page.winner s = None
        /\ exists w,
             Page.winner s' = Some w
             /\ Page.scores s' = Page.increment (Page.scores s) w
             /\ Page.tally (Page.scores s') w = S (Page.tally (Page.scores s) w))).
  { intros s0 index player s1.
    destruct (Page_makeMove_scores s0 index player) as [[_ H]|(Hw & w & Hw' & H)];
      [now left|].
    right. split; [assumption|]. exists w. fold s1 in Hw', H.
    repeat split; try assumption. rewrite H.
    destruct w as [[|]|]; simpl; lia. }
  intros Hstep.
  destruct Hstep as [s index Hindex|s nextMode|s symbol _|s level _|s symbol _
                    |s|s|s|s|s r1 r2 s' _ Hr2 Hbot];
    try (left; reflexivity).
  - unfold Page.handleSquareClick.
    destruct (Page.winner s) eqn:Hw; [now left|].
    destruct (cell_at (Page.board s) index); [now left|].
    destruct (Page.mode s); [destruct (player_eqb _ _); [|now left]|];
      (destruct (Hmove s index (Page.currentPlayer s)) as [H|H];
       [now left|right; right; rewrite Hw in H; exact H]).
  - right. now left.
  - left. unfold Page.botThinks. now destruct (Page.botTurn s).
  - unfold Page.botMoves in Hbot.
    destruct (Page.botTurn s); [|injection Hbot as <-; now left].
    destruct (pickBestMove _ _ _ _ _ _) as [[[| |move] b]|];
      try discriminate; injection Hbot as <-; [now left|].
    destruct (Hmove s move (Page.botSymbol s)) as [H|H]; [now left|].
    right; right. exact H.
Qed.

Lemma page_tally_changes_witness :
  let s := Page.mkState Page.friend balanced X X
             [Some X; Some X; None; Some O; Some O; None; None; None; None]
             X None None false (Page.mkScores 2 1 0) in
  let s' := Page.handleSquareClick 2 s in
  Page.scores s' = Page.scores s
  \/ Page.scores s' = Page.mkScores 0 0 0
  \/ (Page.winner s = None
      /\ exists w,
           Page.winner s' = Some w
           /\ Page.scores s' = Page.increment (Page.scores s) w
           /\ Page.tally (Page.scores s') w = S (Page.tally (Page.scores s) w)).
Proof.
  intros s s'. apply (page_tally_changes s s').
  apply Page.step_square. simpl. lia.
Defined.

(** X16: the starter alternates from round to round.  After [n] clicks on
    the new-round button the starter is the one before when [n] is even and
    the other player when [n] is odd, and the tally is as before; after
    at least one click the board is empty, no outcome is recorded and the
    starter is to move. *)
Theorem handleNewRound_alternates (n : nat) (s : Page.State) :
  let s' := Nat.iter n Page.handleNewRound s in
  Page.startingPlayer s'
  = (if Nat.even n then Page.startingPlayer s
     else nextPlayer (Page.startingPlayer s))
  /\ Page.scores s' = Page.scores s
  /\ (0 < n ->
      Page.board s' = emptyBoard
      /\ Page.winner s' = None
      /\ Page.currentPlayer s' = Page.startingPlayer s').
Proof.
  induction n as [|n IH].
  - simpl. repeat split; lia.
  - cbv zeta in *. rewrite Nat.iter_succ.
    destruct IH as (Hstart & Hscores & _).
    split; [|split; [exact Hscores|intros _; repeat split]].
    change (Page.startingPlayer (Page.handleNewRound (Nat.iter n Page.handleNewRound s)))
      with (nextPlayer (Page.startingPlayer (Nat.iter n Page.handleNewRound s))).
    rewrite Hstart, Nat.even_succ, <- Nat.negb_even.
    destruct (Nat.even n); simpl; [reflexivity|apply nextPlayer_involutive].
Qed.

Lemma handleNewRound_alternates_witness :
  let s' := Nat.iter 3 Page.handleNewRound Page.initial in
  Page.startingPlayer s' = O
  /\ Page.scores s' = Page.scores Page.initial
  /\ Page.board s' = emptyBoard
  /\ Page.winner s' = None
  /\ Page.currentPlayer s' = O.
Proof.
  intros s'.
  destruct (handleNewRound_alternates 3 Page.initial) as (Hstart & Hscores & Hfresh).
  destruct Hfresh as (Hboard & Hw & Hcur); [lia|].
  repeat split; assumption.
Defined.

(** ** The page: rounds against the bot at difficulty ["perfect"] *)

Lemma Page_makeMove_highlight (s : Page.State) (index : nat) (player : Player) :
  (Page.winner s = None -> Page.highlightLine s = None) ->
  Page.winner (Page.makeMove index player s) = None ->
  Page.highlightLine (Page.makeMove index player s) = None.
Proof.
  intros Hline. unfold Page.makeMove.
  destruct (Page.winner s) eqn:Hw; [simpl; rewrite Hw; discriminate|].
  destruct (cell_at (Page.board s) index); [intros _; now apply Hline|].
  destruct (evaluateWinner _) as [[p|] l]; [discriminate|].
  destruct (every_Boolean _); [discriminate|]. intros _. now apply Hline.
Qed.

(** In mode ["bot"], a step of a round is a step of [Home], or changes
    none of the fields of [Home]. *)
Lemma round_step_Home (s s' : Page.State) :
  round_step s s' ->
  Page.mode s = Page.bot ->
  (Page.winner s = None -> Page.highlightLine s = None) ->
  (Home.step (Page.difficulty s) (Page.round s) (Page.round s')
   \/ Page.round s' = Page.round s)
  /\ Page.mode s' = Page.bot
  /\ Page.difficulty s' = Page.difficulty s
  /\ (Page.winner s' = None -> Page.highlightLine s' = None).
Proof.
  intros Hstep Hmode Hline.
  destruct Hstep as [s index Hindex|s|s r1 r2 s' Hr1 Hr2 Hbot].
  - assert (Hround : Page.round (Page.handleSquareClick index s)
                     = Home.handleSquareClick (Page.round s) index).
    { unfold Page.handleSquareClick, Home.handleSquareClick. simpl.
      destruct (Page.winner s) eqn:Hw; [reflexivity|].
      destruct (cell_at (Page.board s) index); [reflexivity|].
      rewrite Hmode. destruct (player_eqb _ _); [|reflexivity].
      apply Page_makeMove_round. intros _. now apply Hline. }
    split; [left; rewrite Hround; now apply Home.step_click|].
    unfold Page.handleSquareClick.
    destruct (Page.winner s) eqn:Hw; [repeat split; auto; intros; first [congruence|apply Hline; congruence]|].
    destruct (cell_at (Page.board s) index); [repeat split; auto; intros; first [congruence|apply Hline; congruence]|].
    rewrite Hmode.
    destruct (player_eqb (Page.currentPlayer s) (Page.humanSymbol s));
      [|repeat split; auto; intros; first [congruence|apply Hline; congruence]].
    destruct (Page_makeMove_settings s index (Page.currentPlayer s))
      as (-> & -> & _).
    repeat split; try assumption.
    apply Page_makeMove_highlight. intros _. now apply Hline.
  - unfold Page.botThinks. destruct (Page.botTurn s); repeat split; auto.
  - unfold Page.botMoves in Hbot.
    destruct (Page.botTurn s) eqn:Hturn;
      [|injection Hbot as <-; repeat split; auto].
    apply botTurn_spec in Hturn as (_ & Hw & Hcur).
    destruct (pickBestMove (Page.botSymbol s) (Page.humanSymbol s)
                (Page.difficulty s) r1 r2 (Page.board s))
      as [[[| |move] b]|] eqn:Hpick; try discriminate; injection Hbot as <-.
    + split; [now right|]. repeat split; simpl; auto.
    + split.
      * left. apply Home.step_bot with r1 r2; try assumption.
        unfold Home.botEffect. simpl. rewrite Hw.
        change (Home.botSymbol (Page.round s)) with (Page.botSymbol s).
        rewrite Hcur, player_eqb_refl, Hpick. f_equal. symmetry.
        apply (Page_makeMove_round s move (Page.botSymbol s)). exact Hline.
      * destruct (Page_makeMove_settings s move (Page.botSymbol s))
          as (Hm & Hd & _).
        repeat split; [simpl; congruence|simpl; congruence|].
        apply (Page_makeMove_highlight s move (Page.botSymbol s) Hline).
Qed.

(** X17: on the page, in mode ["bot"] at difficulty ["perfect"], a round
    played from a fresh board by clicks on the squares and the bot's effect
    is never won by the human: no state of the round records the human's
    mark as winner, has a winning line with three marks of the human, or
    makes the evaluator report the human's mark, whoever starts and
    whichever mark the human plays. *)
Theorem page_perfect_bot_never_loses (s0 s : Page.State) :
  Page.mode s0 = Page.bot ->
  Page.difficulty s0 = perfect ->
  Page.board s0 = emptyBoard ->
  Page.winner s0 = None ->
  Page.highlightLine s0 = None ->
  rtc round_step s0 s ->
  Page.humanSymbol s = Page.humanSymbol s0
  /\ Page.winner s <> Some (Won (Page.humanSymbol s))
  /\ (forall t, In t WINNING_TRIOS ->
        ~ holds (Page.board s) t (Page.humanSymbol s))
  /\ winner (evaluateWinner (Page.board s)) <> Some (Page.humanSymbol s).
Proof.
  intros Hmode Hdiff Hboard Hw Hline Hsteps.
  assert (Hinv : Page.mode s = Page.bot
                 /\ Page.difficulty s = perfect
                 /\ (Page.winner s = None -> Page.highlightLine s = None)
                 /\ rtc (Home.step perfect) (Page.round s0) (Page.round s)).
  { apply (rtc_ind_r (R := round_step)
             (fun s => Page.mode s = Page.bot
                       /\ Page.difficulty s = perfect
                       /\ (Page.winner s = None -> Page.highlightLine s = None)
                       /\ rtc (Home.step perfect) (Page.round s0) (Page.round s))
             s0); [| |exact Hsteps].
    - repeat split; auto. apply rtc_refl.
    - intros s1 s2 _ Hstep (Hm & Hd & Hl & Hrtc).
      destruct (round_step_Home s1 s2 Hstep Hm Hl) as (Hhome & Hm' & Hd' & Hl').
      repeat split; try assumption; [congruence|].
      destruct Hhome as [Hhome| ->]; [|assumption].
      rewrite Hd in Hhome. eapply rtc_r; eauto. }
  destruct Hinv as (_ & _ & _ & Hrtc).
  assert (Hstart : Page.round s0
                   = Home.startFreshBoard (Page.humanSymbol s0)
                       (Page.currentPlayer s0)).
  { unfold Page.round, Home.startFreshBoard. now rewrite Hboard, Hw, Hline. }
  rewrite Hstart in Hrtc.
  pose proof (reachable_humanSymbol _ _ _ _ Hrtc) as Hhuman.
  destruct (reachable_accepted _ _ _ Hrtc) as [fuel Hsafe].
  simpl in Hsafe. apply andb_true_iff in Hsafe as [Hsafe _].
  apply negb_true_iff in Hsafe. unfold human_won in Hsafe.
  apply orb_false_iff in Hsafe as [Hsafe Hlines].
  apply orb_false_iff in Hsafe as [Hround Hcells]. simpl in *.
  split; [assumption|]. split; [|split].
  - intros Hwon. rewrite Hwon in Hround. now rewrite player_eqb_refl in Hround.
  - now apply has_line_holds.
  - now apply cell_is_neq.
Qed.

(** A round the bot wins at difficulty ["perfect"]: the human, [X], plays
    0, the bot searches and takes the centre; the human plays 1, the bot
    blocks at 2; the human plays 3, the bot completes 2-4-6. *)
Lemma page_perfect_bot_never_loses_witness :
  let s0 := Page.setDifficulty perfect Page.initial in
  let s := Page.mkState Page.bot perfect X X
             [Some X; Some X; Some O;
              Some X; Some O; None;
              Some O; None; None]
             O (Some (Won O)) (Some (2, 4, 6)) false (Page.mkScores 0 1 0) in
  Page.humanSymbol s = Page.humanSymbol s0
  /\ Page.winner s <> Some (Won (Page.humanSymbol s))
  /\ (forall t, In t WINNING_TRIOS ->
        ~ holds (Page.board s) t (Page.humanSymbol s))
  /\ winner (evaluateWinner (Page.board s)) <> Some (Page.humanSymbol s).
Proof.
  intros s0 s. apply (page_perfect_bot_never_loses s0 s); try reflexivity.
  eapply rtc_l; [apply (round_square _ 0); simpl; lia|]. normalize_state.
  eapply rtc_l; [apply round_bot_thinks|]. normalize_state.
  eapply rtc_l;
    [apply round_bot_moves with (r1 := 0%Q) (r2 := 0%Q);
     [split; reflexivity || discriminate
     |split; reflexivity || discriminate
     |vm_compute; reflexivity]|].
  eapply rtc_l; [apply (round_square _ 1); simpl; lia|]. normalize_state.
  eapply rtc_l;
    [apply round_bot_moves with (r1 := 0%Q) (r2 := 0%Q);
     [split; reflexivity || discriminate
     |split; reflexivity || discriminate
     |vm_compute; reflexivity]|].
  eapply rtc_l; [apply (round_square _ 3); simpl; lia|]. normalize_state.
  eapply rtc_l;
    [apply round_bot_moves with (r1 := 0%Q) (r2 := 0%Q);
     [split; reflexivity || discriminate
     |split; reflexivity || discriminate
     |vm_compute; reflexivity]|].
  apply rtc_refl.
Defined.

Lemma marks_and_empties (board : Board) :
  count_marks X board + count_marks O board + empties board = length board.
Proof.
  unfold count_marks.
  induction board as [|[[|]|] board IH]; simpl in *; lia.
Qed.

Lemma full_no_empties (board : Board) : full board -> empties board = 0.
Proof.
  intros Hfull. apply every_Boolean_full in Hfull.
  induction board as [|[p|] board IH]; simpl in *; try discriminate; auto.
Qed.

(** X18: in every state the page reaches, the marks and the empty cells
    add up to nine, and a round recorded as a tie has five marks of the
    player who started it and four of the other. *)
Theorem page_tie_five_four (s : Page.State) :
  Page.reachable s ->
  count_marks X (Page.board s) + count_marks O (Page.board s)
  + empties (Page.board s) = 9
  /\ (Page.winner s = Some Tie ->
      count_marks (Page.startingPlayer s) (Page.board s) = 5
      /\ count_marks (nextPlayer (Page.startingPlayer s)) (Page.board s) = 4).
Proof.
  intros Hreach.
  destruct (page_invariant_reachable s Hreach) as (Hlen & Hturns & Hout & _).
  pose proof (marks_and_empties (Page.board s)) as Hsum. rewrite Hlen in Hsum.
  split; [assumption|]. intros Hw.
  unfold turns_alternate, outcome_consistent in *. rewrite Hw in Hturns, Hout.
  destruct Hout as (_ & Hfull & _). apply full_no_empties in Hfull.
  destruct (Page.startingPlayer s); simpl in *;
    destruct Hturns as [[H _]|[H _]]; lia.
Qed.

(** A tied round in mode ["friend"], nine clicks: [X] plays 0, 2, 3, 7
    and 8, [O] plays 1, 4, 5 and 6. *)
Lemma page_tie_five_four_witness :
  let s := Page.mkState Page.friend balanced X X
             [Some X; Some O; Some X;
              Some X; Some O; Some O;
              Some O; Some X; Some X]
             X (Some Tie) None false (Page.mkScores 0 0 1) in
  count_marks X (Page.board s) + count_marks O (Page.board s)
  + empties (Page.board s) = 9
  /\ (Page.winner s = Some Tie ->
      count_marks (Page.startingPlayer s) (Page.board s) = 5
      /\ count_marks (nextPlayer (Page.startingPlayer s)) (Page.board s) = 4).
Proof.
  intros s. apply (page_tie_five_four s). unfold Page.reachable.
  eapply rtc_l; [apply (Page.step_mode _ Page.friend)|]. normalize_state.
  eapply rtc_l; [apply (Page.step_square _ 0); simpl; lia|]. normalize_state.
  eapply rtc_l; [apply (Page.step_square _ 1); simpl; lia|]. normalize_state.
  eapply rtc_l; [apply (Page.step_square _ 2); simpl; lia|]. normalize_state.
  eapply rtc_l; [apply (Page.step_square _ 4); simpl; lia|]. normalize_state.
  eapply rtc_l; [apply (Page.step_square _ 3); simpl; lia|]. normalize_state.
  eapply rtc_l; [apply (Page.step_square _ 5); simpl; lia|]. normalize_state.
  eapply rtc_l; [apply (Page.step_square _ 7); simpl; lia|]. normalize_state.
  eapply rtc_l; [apply (Page.step_square _ 6); simpl; lia|]. normalize_state.
  eapply rtc_l; [apply (Page.step_square _ 8); simpl; lia|]. normalize_state.
  apply rtc_refl.
Defined.
